(** * cdkeys-steam-backend: the name-resolution and price-comparison pipeline

    A shallow embedding of the latest server revision
    (src/server-Copy1.js, lines 726-1931): [cleanGameName],
    [searchSteamGame], [fetchSteamPriceByAppId], [fetchSteamPrice],
    [formatPriceFromCents], [parsePrice] and the [/api/compare] handler,
    over a small model of the JavaScript runtime they use; then the
    functions and routes around them: [fetchCDKeysGames],
    [getSteamGameInfo], [getKoreanGameName], [sanitizeProductName], the
    refresh route, the two export routes up to the sheet they build, the
    cache routes and the name-cleaning test route. *)

From Stdlib Require Import ZArith NArith Bool Lia Ascii String Sorted.
From Stdlib Require Import Floats.SpecFloat DecimalN.
From stdpp Require Import base option list gmap.

Local Open Scope Z_scope.

(** ** The JavaScript runtime, as far as the server uses it *)

Module JS.

(** *** Strings

    A JavaScript string is a sequence of UTF-16 code units; [length],
    [trim], [includes], [split] and regular expressions without the [u]
    flag all work on code units. *)

Definition jschar := N.
Definition jsstring := list jschar.

(** An ASCII literal as a JavaScript string. *)
Definition str (s : string) : jsstring :=
  map N_of_ascii (list_ascii_of_string s).

Definition WON : jschar := 0x20A9%N.        (* ₩ *)
Definition EURO : jschar := 0x20AC%N.       (* € *)
Definition POUND : jschar := 0xA3%N.        (* £ *)
Definition DOLLAR : jschar := 0x24%N.       (* $ *)
Definition COMMA : jschar := 0x2C%N.        (* , *)
Definition SPACE : jschar := 0x20%N.
Definition POINT : jschar := 0x2E%N.        (* . *)
(** "무료" (free of charge): U+BB34 U+B8CC. *)
Definition MURYO : jsstring := [0xBB34%N; 0xB8CC%N].

(** WhiteSpace and LineTerminator of ECMA-262: what [\s] matches and what
    [trim] removes. *)
Definition isWhiteSpace (c : jschar) : bool :=
  ((9 <=? c) && (c <=? 13) || (c =? 0x20) || (c =? 0xA0) || (c =? 0x1680)
   || (0x2000 <=? c) && (c <=? 0x200A) || (c =? 0x2028) || (c =? 0x2029)
   || (c =? 0x202F) || (c =? 0x205F) || (c =? 0x3000) || (c =? 0xFEFF))%N.

(** LineTerminator: what [.] does not match. *)
Definition isLineTerminator (c : jschar) : bool :=
  ((c =? 0x0A) || (c =? 0x0D) || (c =? 0x2028) || (c =? 0x2029))%N.

Fixpoint trimStart (s : jsstring) : jsstring :=
  match s with
  | c :: s' => if isWhiteSpace c then trimStart s' else s
  | [] => []
  end.

Definition trimEnd (s : jsstring) : jsstring := rev (trimStart (rev s)).

Definition trim (s : jsstring) : jsstring := trimEnd (trimStart s).

Fixpoint startsWith (p s : jsstring) : bool :=
  match p, s with
  | [], _ => true
  | a :: p', b :: s' => (a =? b)%N && startsWith p' s'
  | _ :: _, [] => false
  end.

(** [s.includes(p)]. *)
Fixpoint includes (s p : jsstring) : bool :=
  startsWith p s || match s with [] => false | _ :: s' => includes s' p end.

(** [toLowerCase] on the code units A-Z. The server only asks whether the
    lowered string contains "free"; no code unit other than F, R and E
    lowers to f, r or e, so for that question the other mappings of the
    Unicode tables are immaterial. *)
Definition lowerChar (c : jschar) : jschar :=
  if ((0x41 <=? c) && (c <=? 0x5A))%N then (c + 32)%N else c.

Definition toLowerCase (s : jsstring) : jsstring := map lowerChar s.

(** Canonicalize of ECMA-262 for an [/i] pattern without [u]: a code unit
    is compared through its upper-case form, and a non-ASCII unit never
    canonicalizes to an ASCII one. All letters in the server's patterns
    are ASCII, so only a-z need to be folded. *)
Definition canonicalize (c : jschar) : jschar :=
  if ((0x61 <=? c) && (c <=? 0x7A))%N then (c - 32)%N else c.

(** [s.replace(/[...]/g, '')] for a character class: every code unit in
    the class is removed. *)
Definition removeAll (cls : jschar -> bool) (s : jsstring) : jsstring :=
  filter (fun c => cls c = false) s.

(** [s.split(' ')]. *)
Fixpoint split_space (s : jsstring) : list jsstring :=
  match s with
  | [] => [[]]
  | c :: s' =>
      if (c =? SPACE)%N then [] :: split_space s'
      else match split_space s' with
           | w :: ws => (c :: w) :: ws
           | [] => [[c]]
           end
  end.

(** [parts.join(' ')]. *)
Fixpoint join_space (parts : list jsstring) : jsstring :=
  match parts with
  | [] => []
  | [w] => w
  | w :: ws => w ++ SPACE :: join_space ws
  end.

(** [arr.slice(0, -k)]: all but the last [k] elements. *)
Definition slice_to_minus {A} (k : nat) (l : list A) : list A :=
  take (length l - k)%nat l.

(** *** Decimal digits *)

Definition isDigit (c : jschar) : bool := ((0x30 <=? c) && (c <=? 0x39))%N.

Definition digitValue (c : jschar) : Z := Z.of_N c - 0x30.

Definition isHexDigit (c : jschar) : bool :=
  (isDigit c || (0x41 <=? c) && (c <=? 0x46) || (0x61 <=? c) && (c <=? 0x66))%N.

Definition hexDigitValue (c : jschar) : Z :=
  if isDigit c then Z.of_N c - 0x30
  else if (c <=? 0x46)%N then Z.of_N c - 0x41 + 10
  else Z.of_N c - 0x61 + 10.

Definition digitsValue (radix : Z) (val : jschar -> Z) (ds : jsstring) : Z :=
  fold_left (fun acc c => acc * radix + val c) ds 0.

(** The longest prefix of [s] made of code units satisfying [p], and the
    rest. *)
Fixpoint span (p : jschar -> bool) (s : jsstring) : jsstring * jsstring :=
  match s with
  | c :: s' => if p c then let '(a, b) := span p s' in (c :: a, b) else ([], s)
  | [] => ([], [])
  end.

Fixpoint uint_codes (d : Decimal.uint) : jsstring :=
  match d with
  | Decimal.Nil => []
  | Decimal.D0 d => 0x30%N :: uint_codes d
  | Decimal.D1 d => 0x31%N :: uint_codes d
  | Decimal.D2 d => 0x32%N :: uint_codes d
  | Decimal.D3 d => 0x33%N :: uint_codes d
  | Decimal.D4 d => 0x34%N :: uint_codes d
  | Decimal.D5 d => 0x35%N :: uint_codes d
  | Decimal.D6 d => 0x36%N :: uint_codes d
  | Decimal.D7 d => 0x37%N :: uint_codes d
  | Decimal.D8 d => 0x38%N :: uint_codes d
  | Decimal.D9 d => 0x39%N :: uint_codes d
  end.

(** [String(n)] for a natural number. *)
Definition decimal (n : N) : jsstring := uint_codes (N.to_uint n).

(** Digit grouping of [toLocaleString('ko-KR')] on a non-negative
    integer: a comma before every group of three digits, counted from the
    right. *)
Fixpoint group3 (rev_digits : jsstring) : jsstring :=
  match rev_digits with
  | a :: b :: c :: ((_ :: _) as more) => a :: b :: c :: COMMA :: group3 more
  | _ => rev_digits
  end.

Definition toLocaleString (n : N) : jsstring := rev (group3 (rev (decimal n))).

(** *** Numbers

    A JavaScript number is an IEEE 754 binary64 value. Every price the
    pipeline stores is an integer-valued double, a NaN or an infinity:
    [parseInt] and [Math.round] produce nothing else, and the difference
    of two such values is again one. They are kept as [number]; an integer
    is exact in a double up to 2^53, far above any price. Where the code
    computes with fractions ([parseFloat], the multiplication by an
    exchange rate, the division for the percentage) the model computes in
    binary64 through [SpecFloat]. *)

Inductive number := NaN | PosInf | NegInf | Fin (z : Z).

#[export] Instance number_eq_dec : EqDecision number.
Proof. solve_decision. Defined.

Definition prec : Z := 53.
Definition emax : Z := 1024.

Definition double := spec_float.

Definition double_of_Z (z : Z) : double := binary_normalize prec emax z 0 false.

Definition to_double (x : number) : double :=
  match x with
  | NaN => S754_nan
  | PosInf => S754_infinity false
  | NegInf => S754_infinity true
  | Fin z => double_of_Z z
  end.

Definition dmul : double -> double -> double := SFmul prec emax.
Definition ddiv : double -> double -> double := SFdiv prec emax.

(** [x - y]. *)
Definition sub (x y : number) : number :=
  match x, y with
  | NaN, _ | _, NaN => NaN
  | PosInf, PosInf | NegInf, NegInf => NaN
  | PosInf, _ => PosInf
  | NegInf, _ => NegInf
  | Fin _, PosInf => NegInf
  | Fin _, NegInf => PosInf
  | Fin a, Fin b => Fin (a - b)
  end.

(** [x >= y]: false as soon as one side is NaN. *)
Definition ge (x y : number) : bool :=
  match x, y with
  | NaN, _ | _, NaN => false
  | PosInf, _ => true
  | _, NegInf => true
  | NegInf, _ => false
  | Fin _, PosInf => false
  | Fin a, Fin b => b <=? a
  end.

(** [x > y]. *)
Definition gt (x y : number) : bool :=
  match x, y with
  | NaN, _ | _, NaN => false
  | PosInf, PosInf | NegInf, NegInf => false
  | PosInf, _ => true
  | _, NegInf => true
  | NegInf, _ => false
  | Fin _, PosInf => false
  | Fin a, Fin b => b <? a
  end.

(** [Math.round(x)]: the integer nearest to [x], a tie going towards
    +Infinity; that is the floor of [x + 1/2], computed exactly here. *)
Definition Math_round (x : double) : number :=
  match x with
  | S754_nan => NaN
  | S754_infinity false => PosInf
  | S754_infinity true => NegInf
  | S754_zero _ => Fin 0
  | S754_finite s m e =>
      let sm := if s then Z.neg m else Z.pos m in
      if 0 <=? e then Fin (sm * 2 ^ e)
      else Fin ((2 * sm + 2 ^ (- e)) / 2 ^ (1 - e))
  end.

(** The binary64 value nearest to [(-1)^neg * m * 10^e10], ties to
    even. *)
Definition decimal_to_double (neg : bool) (m : Z) (e10 : Z) : double :=
  match m with
  | Z.pos p =>
      if 0 <=? e10 then binary_normalize prec emax ((if neg then - m else m) * 10 ^ e10) 0 neg
      else SFdiv prec emax (S754_finite neg p 0)
                           (S754_finite false (Z.to_pos (10 ^ (- e10))) 0)
  | _ => S754_zero neg
  end.

(** The sign of a StrDecimalLiteral or of the input of [parseInt]. *)
Definition readSign (s : jsstring) : bool * jsstring :=
  match s with
  | c :: s' => if (c =? 0x2D)%N then (true, s')
               else if (c =? 0x2B)%N then (false, s') else (false, s)
  | [] => (false, [])
  end.

(** The exponent part of a StrDecimalLiteral: [e] or [E], an optional
    sign and at least one digit; absent otherwise. *)
Definition readExponent (s : jsstring) : Z :=
  match s with
  | c :: s' =>
      if ((c =? 0x65) || (c =? 0x45))%N then
        let '(neg, s'') := readSign s' in
        match fst (span isDigit s'') with
        | [] => 0
        | ds => let v := digitsValue 10 digitValue ds in if neg then - v else v
        end
      else 0
  | [] => 0
  end.

(** [parseFloat(s)]: leading white space is skipped and the longest prefix
    that is a StrDecimalLiteral is converted; NaN when there is none. *)
Definition parseFloat (s : jsstring) : double :=
  let '(neg, s1) := readSign (trimStart s) in
  if startsWith (str "Infinity") s1 then S754_infinity neg else
  let '(ip, s2) := span isDigit s1 in
  let '(fp, s3) :=
    match s2 with
    | c :: r => if (c =? 0x2E)%N then span isDigit r else ([], s2)
    | [] => ([], s2)
    end in
  match ip ++ fp with
  | [] => S754_nan
  | ds => decimal_to_double neg (digitsValue 10 digitValue ds)
                            (readExponent s3 - Z.of_nat (length fp))
  end.

(** [parseInt(s)] without a radix: leading white space is skipped, a sign
    is read, a [0x] or [0X] prefix selects base 16, and the longest prefix
    of digits is converted; NaN when there is no digit. *)
Definition parseInt (s : jsstring) : number :=
  let '(neg, s1) := readSign (trimStart s) in
  let '(radix, val, isD, s2) :=
    match s1 with
    | a :: b :: r =>
        if ((a =? 0x30) && ((b =? 0x78) || (b =? 0x58)))%N
        then (16, hexDigitValue, isHexDigit, r)
        else (10, digitValue, isDigit, s1)
    | _ => (10, digitValue, isDigit, s1)
    end in
  match fst (span isD s2) with
  | [] => NaN
  | ds => let v := digitsValue radix val ds in Fin (if neg then - v else v)
  end.

(** *** Regular expressions

    The patterns of the server use literals, [\s], [.], [$], grouping
    with alternatives and the greedy quantifiers [*], [+] and [?]. The
    matcher is the backtracking matcher of ECMA-262 in continuation
    style: [rmatch i r s k] matches [r] at the front of [s] and hands the
    rest to [k]; the first success in the order of the standard (left
    alternative first, longest repetition first) is the result. *)

Inductive regex :=
  | Eps
  | Lit (c : jschar)
  | Ws                        (* \s *)
  | Any                       (* .  *)
  | Eos                       (* $  *)
  | Cat (r1 r2 : regex)
  | Alt (r1 r2 : regex)
  | Star (r : regex)
  | Plus (r : regex)
  | Opt (r : regex).

Fixpoint rseq (rs : list regex) : regex :=
  match rs with
  | [] => Eps
  | [r] => r
  | r :: rs' => Cat r (rseq rs')
  end.

Definition lit (s : string) : regex := rseq (map Lit (str s)).

Definition charEq (ignoreCase : bool) (c x : jschar) : bool :=
  if ignoreCase then (canonicalize c =? canonicalize x)%N else (c =? x)%N.

Definition continuation := jsstring -> option jsstring.

(** RepeatMatcher with min = 0 and max = infinity: an iteration that
    consumes nothing is rejected, so the length of the input bounds the
    number of iterations. *)
Fixpoint repeatMatcher (m : jsstring -> continuation -> option jsstring)
    (fuel : nat) (s : jsstring) (k : continuation) : option jsstring :=
  match fuel with
  | O => k s
  | S n =>
      match m s (fun s' => if (length s' <? length s)%nat then repeatMatcher m n s' k else None) with
      | Some rest => Some rest
      | None => k s
      end
  end.

Fixpoint rmatch (ignoreCase : bool) (r : regex) (s : jsstring) (k : continuation)
    : option jsstring :=
  match r with
  | Eps => k s
  | Lit c =>
      match s with
      | x :: s' => if charEq ignoreCase c x then k s' else None
      | [] => None
      end
  | Ws =>
      match s with
      | x :: s' => if isWhiteSpace x then k s' else None
      | [] => None
      end
  | Any =>
      match s with
      | x :: s' => if isLineTerminator x then None else k s'
      | [] => None
      end
  | Eos => match s with [] => k [] | _ :: _ => None end
  | Cat r1 r2 => rmatch ignoreCase r1 s (fun s' => rmatch ignoreCase r2 s' k)
  | Alt r1 r2 =>
      match rmatch ignoreCase r1 s k with
      | Some rest => Some rest
      | None => rmatch ignoreCase r2 s k
      end
  | Star r' => repeatMatcher (rmatch ignoreCase r') (length s) s k
  | Plus r' =>
      rmatch ignoreCase r' s
        (fun s' => repeatMatcher (rmatch ignoreCase r') (length s') s' k)
  | Opt r' =>
      match rmatch ignoreCase r' s k with
      | Some rest => Some rest
      | None => k s
      end
  end.

(** [s.replace(r, '')] for a pattern without the [g] flag: the leftmost
    match is removed, the string is returned as it is when there is
    none. *)
Fixpoint replace (ignoreCase : bool) (r : regex) (s : jsstring) : jsstring :=
  match rmatch ignoreCase r s Some with
  | Some rest => rest
  | None =>
      match s with
      | c :: s' => c :: replace ignoreCase r s'
      | [] => []
      end
  end.

(** *** Sets and arrays *)

(** [[...new Set(l)]]: the elements of [l] in the order of their first
    occurrence. *)
Fixpoint uniq_from (seen l : list jsstring) : list jsstring :=
  match l with
  | [] => []
  | x :: l' =>
      if bool_decide (x ∈ seen) then uniq_from seen l'
      else x :: uniq_from (x :: seen) l'
  end.

Definition uniq (l : list jsstring) : list jsstring := uniq_from [] l.

(** [Array.prototype.sort(comparefn)]. The sort is stable (ECMAScript
    2019), and a NaN returned by the comparator counts as +0
    (SortCompare). For a comparator that orders the elements consistently
    the result is fixed by the standard: the sorted arrangement in which
    elements that compare equal keep their relative order. Inserting the
    elements from the last to the first, each before the first element it
    does not exceed, computes that arrangement. *)
Section Sort.
Context {A : Type}.
Variable comparefn : A -> A -> number.

Definition SortCompare (x y : A) : number :=
  match comparefn x y with
  | NaN => Fin 0
  | v => v
  end.

Fixpoint sort_insert (x : A) (l : list A) : list A :=
  match l with
  | [] => [x]
  | y :: l' =>
      if gt (SortCompare x y) (Fin 0) then y :: sort_insert x l'
      else x :: l
  end.

Fixpoint sort (l : list A) : list A :=
  match l with
  | [] => []
  | x :: l' => sort_insert x (sort l')
  end.
End Sort.

End JS.

Import JS.

(** ** Data of the server *)

(** What the page script of [fetchCDKeysGames] returns for one product. *)
Record listedItem := {
  li_originalName : jsstring;
  li_price : jsstring;
  li_url : jsstring;
  li_id : jsstring
}.

(** A listed product after name cleaning: [{...game, name: cleanName}]. *)
Record game := {
  originalName : jsstring;
  price : jsstring;
  url : jsstring;
  id : jsstring;
  name : jsstring
}.

(** One entry of [response.data.items] of the store search. *)
Record item := {
  item_id : N;
  item_name : jsstring;
  item_type : jsstring
}.

(** The result object of [searchSteamGame]. *)
Record searchResult := {
  sr_appid : N;
  sr_name : jsstring;
  sr_type : jsstring;
  sr_source : jsstring
}.

(** [price_overview] of the store's appdetails; amounts in hundredths. *)
Record priceOverview := {
  initial : N;
  final : N;
  discount_percent : N
}.

(** [appData.data]; an absent or empty [name] is the empty string. *)
Record gameDetails := {
  details_name : jsstring;
  price_overview : option priceOverview
}.

(** [response.data[appId]]. *)
Record appData := {
  success : bool;
  data : option gameDetails
}.

(** The result object of [fetchSteamPriceByAppId] and [fetchSteamPrice]. *)
Record steamPrice := {
  sp_exactName : jsstring;
  sp_appid : N;
  sp_original : jsstring;
  sp_final : jsstring;
  sp_discount : option jsstring;
  sp_source : option jsstring
}.

(** One element of the [games] array of the compare response. *)
Record gameData := {
  gd_id : jsstring;
  gd_name : jsstring;
  gd_originalName : jsstring;
  exactName : jsstring;
  cdkeysPrice : number;
  cdkeysUrl : jsstring;
  steamOriginalPrice : number;
  steamFinalPrice : number;
  steamDiscount : option jsstring;
  savings : number;
  savingsPercent : number;
  steamAppId : N;
  gd_source : option jsstring;
  gd_steamFound : bool
}.

(** One element of the [notFound] array: [{...game, steamFound, reason}]. *)
Record notFoundGame := {
  nf_game : game;
  nf_steamFound : bool;
  reason : jsstring
}.

(** The body of a response of the compare route, by the object literal
    that builds it. *)
Inductive responseBody :=
  | ErrorBody (error : jsstring) (details : option jsstring)
  | EmptyBody (success : bool) (games : list gameData) (message : jsstring)
  | CompareBody (success : bool) (totalGames discountedGames notFoundGames : nat)
      (games : list gameData) (notFound : list notFoundGame).

Record response := {
  status : nat;
  body : responseBody
}.

(** The property names of a response body. *)
Definition keys (b : responseBody) : list string :=
  match b with
  | ErrorBody _ None => ["error"]
  | ErrorBody _ (Some _) => ["error"; "details"]
  | EmptyBody _ _ _ => ["success"; "games"; "message"]
  | CompareBody _ _ _ _ _ _ =>
      ["success"; "totalGames"; "discountedGames"; "notFoundGames"; "games"; "notFound"]
  end%string.

(** The body of a compare request: [url] is absent when missing or
    empty, [minDifference] when missing. A threshold that is not a number
    is compared through its numeric value, and a fractional one filters
    the integer savings exactly as its ceiling does, so a [number] stands
    for any of them. *)
Record compareRequest := {
  req_url : option jsstring;
  req_minDifference : option number
}.

(** ** The outside world *)

(** An awaited call either throws or returns. *)
Inductive outcome (A : Type) :=
  | Throws (message : jsstring)
  | Returns (a : A).
Arguments Throws {A} message.
Arguments Returns {A} a.

(** The remote services, fixed for the duration of a request:
    - [page_evaluate url]: the products scraped from the listing page, or
      the failure of the browser (navigation, missing selector);
    - [storesearch term]: [response.data.items] of the store search, the
      empty list when [data] or [items] is absent;
    - [appdetails appId]: [response.data[appId]] of the store details. *)
Record network := {
  page_evaluate : jsstring -> outcome (list listedItem);
  storesearch : jsstring -> outcome (list item);
  appdetails : N -> outcome (option appData)
}.

(** The NodeCache instance. It clones values on [set] and [get], so a
    cached object is a value. The keys of the server fall in three
    families by prefix, [cdkeys_], [steam_search_] and [steam_price_],
    which cannot collide; each family is a map keyed by the rest of the
    key. Expiry removes entries between calls; a call sees the entries
    that are live. *)
Record cache := {
  cdkeys_ : gmap jsstring (list game);
  steam_search_ : gmap jsstring searchResult;
  steam_price_ : gmap jsstring steamPrice
}.

Definition empty_cache : cache :=
  {| cdkeys_ := ∅; steam_search_ := ∅; steam_price_ := ∅ |}.

Definition set_cdkeys (k : jsstring) (v : list game) (c : cache) : cache :=
  {| cdkeys_ := <[k := v]> (cdkeys_ c);
     steam_search_ := steam_search_ c;
     steam_price_ := steam_price_ c |}.

Definition set_steam_search (k : jsstring) (v : searchResult) (c : cache) : cache :=
  {| cdkeys_ := cdkeys_ c;
     steam_search_ := <[k := v]> (steam_search_ c);
     steam_price_ := steam_price_ c |}.

Definition set_steam_price (k : jsstring) (v : steamPrice) (c : cache) : cache :=
  {| cdkeys_ := cdkeys_ c;
     steam_search_ := steam_search_ c;
     steam_price_ := <[k := v]> (steam_price_ c) |}.

(** ** cleanGameName (lines 812-903) *)

Definition platformPatterns : list regex := [
  (* PC-DLC *)
  rseq [Plus Ws; lit "PC-DLC"; Star Ws; Eos];
  rseq [Plus Ws; lit "(PC-DLC)"; Star Ws; Eos];
  rseq [Plus Ws; lit "-"; Star Ws; lit "PC-DLC"; Star Ws; Eos];
  rseq [Plus Ws; lit "PC - DLC"; Star Ws; Eos];
  rseq [Plus Ws; lit "(PC/Mac)"; Star Ws; Eos];
  rseq [Plus Ws; lit "-"; Star Ws; lit "PC/Mac"; Star Ws; Eos];
  rseq [Plus Ws; lit "[PC/Mac]"; Star Ws; Eos];
  rseq [Plus Ws; lit "PC/Mac"; Star Ws; lit "-"; Star Ws; Eos];
  rseq [Plus Ws; lit "PC/Mac"; Star Ws; Opt (lit "-"); Star Ws; Eos];
  rseq [Plus Ws; lit "PC/Mac"; Plus Ws; lit "-"; Star Ws; Eos];
  rseq [Plus Ws; lit "(PC/Mac)"; Star Ws; Opt (lit "-"); Star Ws; Eos];
  (* PC *)
  rseq [Plus Ws; lit "PC"; Star Ws; Eos];
  rseq [Plus Ws; lit "(PC)"; Star Ws; Eos];
  rseq [Plus Ws; lit "-"; Star Ws; lit "PC"; Star Ws; Eos];
  (* DLC *)
  rseq [Plus Ws; lit "DLC"; Star Ws; Eos];
  rseq [Plus Ws; lit "(DLC)"; Star Ws; Eos];
  rseq [Plus Ws; lit "-"; Star Ws; lit "DLC"; Star Ws; Eos];
  (* Steam *)
  rseq [Plus Ws; lit "Steam"; Star Ws; Eos];
  rseq [Plus Ws; lit "(Steam)"; Star Ws; Eos];
  rseq [Plus Ws; lit "-"; Star Ws; lit "Steam"; Star Ws; Eos];
  rseq [Plus Ws; lit "Steam"; Plus Ws; lit "Key"; Star Ws; Eos];
  rseq [Plus Ws; lit "Steam"; Plus Ws; lit "Code"; Star Ws; Eos];
  (* Key, Code *)
  rseq [Plus Ws; lit "Key"; Star Ws; Eos];
  rseq [Plus Ws; lit "Code"; Star Ws; Eos];
  rseq [Plus Ws; lit "(Key)"; Star Ws; Eos];
  rseq [Plus Ws; lit "(Code)"; Star Ws; Eos];
  (* Digital *)
  rseq [Plus Ws; lit "Digital"; Star Ws; Eos];
  rseq [Plus Ws; lit "(Digital)"; Star Ws; Eos];
  rseq [Plus Ws; lit "Digital"; Plus Ws; lit "Download"; Star Ws; Eos];
  rseq [Plus Ws; lit "Download"; Star Ws; Eos];
  (* regions *)
  rseq [Plus Ws; lit "Global"; Star Ws; Eos];
  rseq [Plus Ws; lit "[Global]"; Star Ws; Eos];
  rseq [Plus Ws; lit "(Global)"; Star Ws; Eos];
  rseq [Plus Ws; lit "Worldwide"; Star Ws; Eos];
  rseq [Plus Ws; lit "[Worldwide]"; Star Ws; Eos];
  rseq [Plus Ws; lit "EU"; Star Ws; Eos];
  rseq [Plus Ws; lit "US"; Star Ws; Eos];
  rseq [Plus Ws; lit "UK"; Star Ws; Eos];
  rseq [Plus Ws; lit "ROW"; Star Ws; Eos];
  (* other keywords *)
  rseq [Plus Ws; lit "Edition"; Star Ws; Eos];
  rseq [Plus Ws; lit "Game"; Star Ws; Eos];
  rseq [Plus Ws; lit "(Game)"; Star Ws; Eos]
].

(** The [forEach] over the patterns: each one is applied to what the
    previous ones left, and the result is trimmed. *)
Definition applyPatterns (patterns : list regex) (cleanName : jsstring) : jsstring :=
  fold_left (fun cleanName pattern => trim (replace true pattern cleanName))
            patterns cleanName.

(** [cleanLength / originalLength < 0.3]. The quotient of two lengths is
    correctly rounded and [0.3] is the double nearest to 3/10, so for any
    length a string can have the comparison on doubles holds exactly when
    [10 * cleanLength < 3 * originalLength]; with [originalLength = 0]
    the quotient is NaN and the comparison is false, as here. *)
Definition retentionBelow30 (cleanLength originalLength : nat) : bool :=
  (10 * cleanLength <? 3 * originalLength)%nat.

Definition cleanGameName (originalName : jsstring) : jsstring :=
  let cleanName := applyPatterns platformPatterns (trim originalName) in
  let originalLength := length originalName in
  let cleanLength := length cleanName in
  if (cleanLength <? 3)%nat || retentionBelow30 cleanLength originalLength
  then originalName
  else cleanName.

(** ** searchSteamGame (lines 981-1056) *)

(** [/\s+(PC|Mac|Linux).*$/i] *)
Definition platformSuffix : regex :=
  rseq [Plus Ws; Alt (lit "PC") (Alt (lit "Mac") (lit "Linux")); Star Any; Eos].

(** [/\s+(DLC|Expansion).*$/i] *)
Definition dlcSuffix : regex :=
  rseq [Plus Ws; Alt (lit "DLC") (lit "Expansion"); Star Any; Eos].

(** [/\s*:\s*.*$/i] *)
Definition colonSuffix : regex :=
  rseq [Star Ws; lit ":"; Star Ws; Star Any; Eos].

(** [/\s*-\s*.*$/i] *)
Definition dashSuffix : regex :=
  rseq [Star Ws; lit "-"; Star Ws; Star Any; Eos].

(** The eight candidate search terms, in the order of the array
    literal. *)
Definition searchAttempts (gameName : jsstring) : list jsstring := [
  gameName;
  cleanGameName gameName;
  replace true platformSuffix gameName;
  replace true dlcSuffix gameName;
  replace true colonSuffix gameName;
  replace true dashSuffix gameName;
  join_space (slice_to_minus 1 (split_space gameName));
  join_space (slice_to_minus 2 (split_space gameName))
].

(** The filter of [uniqueAttempts]: [name && name.trim().length > 2]. *)
Definition longEnough (name : jsstring) : bool :=
  negb (bool_decide (name = [])) && (2 <? length (trim name))%nat.

Definition uniqueAttempts (gameName : jsstring) : list jsstring :=
  List.filter longEnough (uniq (searchAttempts gameName)).

Definition isGameOrDlc (it : item) : bool :=
  bool_decide (item_type it = str "game") || bool_decide (item_type it = str "dlc").

(** [items.find(item => ...) || items[0]], for a non-empty [items]. *)
Definition bestMatch (first : item) (items : list item) : item :=
  default first (find isGameOrDlc items).

(** The template string of [result.source], with the 1-based stage. *)
Definition sourceLabel (i : nat) (attemptName : jsstring) : jsstring :=
  str "Steam API (" ++ decimal (N.of_nat (i + 1)) ++ [0xB2E8; 0xACC4]%N
    ++ str ": " ++ [0x22%N] ++ attemptName ++ [0x22%N] ++ str ")".

(** The [for] loop over [uniqueAttempts], from index [i] on. A request
    that throws is caught inside the loop body and the loop goes on. *)
Fixpoint searchLoop (net : network) (i : nat) (attempts : list jsstring) (c : cache)
    : option searchResult * cache :=
  match attempts with
  | [] => (None, c)
  | attempt :: rest =>
      let attemptName := trim attempt in
      match steam_search_ c !! attemptName with
      | Some cached => (Some cached, c)
      | None =>
          match storesearch net attemptName with
          | Returns (first :: others) =>
              let best := bestMatch first (first :: others) in
              let result := {| sr_appid := item_id best;
                               sr_name := item_name best;
                               sr_type := item_type best;
                               sr_source := sourceLabel i attemptName |} in
              (Some result, set_steam_search attemptName result c)
          | Returns [] => searchLoop net (S i) rest c
          | Throws _ => searchLoop net (S i) rest c
          end
      end
  end.

Definition searchSteamGame (net : network) (gameName : jsstring) (c : cache)
    : option searchResult * cache :=
  searchLoop net 0 (uniqueAttempts gameName) c.

(** ** formatPriceFromCents (lines 1209-1213)

    [Math.round(cents / 100)] on a natural number of hundredths is
    [(cents + 50) / 100] rounded down: the quotient is a half-integer
    only when it is exact. *)
Definition formatPriceFromCents (cents : N) : jsstring :=
  if (cents =? 0)%N then MURYO
  else let actualPrice := ((cents + 50) / 100)%N in
       WON :: toLocaleString actualPrice.

(** ** fetchSteamPriceByAppId (lines 1059-1114) *)

Definition appidKey (appId : N) : jsstring := str "appid_" ++ decimal appId.

Definition fetchSteamPriceByAppId (net : network) (appId : N) (gameName : jsstring)
    (c : cache) : option steamPrice * cache :=
  let cacheKey := appidKey appId in
  match steam_price_ c !! cacheKey with
  | Some cached => (Some cached, c)
  | None =>
      match appdetails net appId with
      | Returns (Some {| success := true; data := Some details |}) =>
          let exact := match details_name details with
                       | [] => gameName
                       | n => n
                       end in
          let result :=
            match price_overview details with
            | Some overview =>
                {| sp_exactName := exact;
                   sp_appid := appId;
                   sp_original :=
                     formatPriceFromCents
                       (if (initial overview =? 0)%N then final overview
                        else initial overview);
                   sp_final := formatPriceFromCents (final overview);
                   sp_discount :=
                     if (0 <? discount_percent overview)%N
                     then Some (str "-" ++ decimal (discount_percent overview) ++ str "%")
                     else None;
                   sp_source := None |}
            | None =>
                {| sp_exactName := exact;
                   sp_appid := appId;
                   sp_original := MURYO;
                   sp_final := MURYO;
                   sp_discount := None;
                   sp_source := None |}
            end in
          (Some result, set_steam_price cacheKey result c)
      | Returns _ => (None, c)
      | Throws _ => (None, c)
      end
  end.

(** ** fetchSteamPrice (lines 1117-1143) *)

Definition withSource (source : jsstring) (p : steamPrice) : steamPrice :=
  {| sp_exactName := sp_exactName p;
     sp_appid := sp_appid p;
     sp_original := sp_original p;
     sp_final := sp_final p;
     sp_discount := sp_discount p;
     sp_source := Some source |}.

Definition fetchSteamPrice (net : network) (gameName : jsstring) (c : cache)
    : option steamPrice * cache :=
  match steam_price_ c !! gameName with
  | Some cached => (Some cached, c)
  | None =>
      match searchSteamGame net gameName c with
      | (None, c1) => (None, c1)
      | (Some gameInfo, c1) =>
          match fetchSteamPriceByAppId net (sr_appid gameInfo) gameName c1 with
          | (Some result0, c2) =>
              let result := withSource (sr_source gameInfo) result0 in
              (Some result, set_steam_price gameName result c2)
          | (None, c2) => (None, c2)
          end
      end
  end.

(** ** fetchCDKeysGames (lines 906-978) *)

Definition processGame (g : listedItem) : game :=
  {| originalName := li_originalName g;
     price := li_price g;
     url := li_url g;
     id := li_id g;
     name := cleanGameName (li_originalName g) |}.

Definition fetchCDKeysGames (net : network) (listingUrl : jsstring) (c : cache)
    : outcome (list game) * cache :=
  match cdkeys_ c !! listingUrl with
  | Some cached => (Returns cached, c)
  | None =>
      match page_evaluate net listingUrl with
      | Returns games =>
          let processedGames := map processGame games in
          (Returns processedGames, set_cdkeys listingUrl processedGames c)
      | Throws error => (Throws error, c)
      end
  end.

(** ** parsePrice (lines 1253-1278) *)

Definition wonClass (c : jschar) : bool :=
  (c =? WON)%N || (c =? COMMA)%N || isWhiteSpace c.
Definition dollarClass (c : jschar) : bool :=
  (c =? DOLLAR)%N || (c =? COMMA)%N || isWhiteSpace c.
Definition euroClass (c : jschar) : bool :=
  (c =? EURO)%N || (c =? COMMA)%N || isWhiteSpace c.
Definition poundClass (c : jschar) : bool :=
  (c =? POUND)%N || (c =? COMMA)%N || isWhiteSpace c.

Definition parsePrice (priceString : jsstring) : number :=
  if bool_decide (priceString = []) then Fin 0
  else if bool_decide (priceString = MURYO)
          || includes (toLowerCase priceString) (str "free") then Fin 0
  else if includes priceString [WON] then
    parseInt (removeAll wonClass priceString)
  else if includes priceString [DOLLAR] then
    let dollars := parseFloat (removeAll dollarClass priceString) in
    Math_round (dmul dollars (double_of_Z 1320))
  else if includes priceString [EURO] then
    let euros := parseFloat (removeAll euroClass priceString) in
    Math_round (dmul euros (double_of_Z 1430))
  else if includes priceString [POUND] then
    let pounds := parseFloat (removeAll poundClass priceString) in
    Math_round (dmul pounds (double_of_Z 1670))
  else Fin 0.

(** ** The compare route (lines 1347-1447) *)

(** "Steam API에서 정보 없음 (모든 단계 실패)" *)
Definition REASON_NOT_FOUND : jsstring :=
  [0x53; 0x74; 0x65; 0x61; 0x6D; 0x20; 0x41; 0x50; 0x49; 0xC5D0; 0xC11C; 0x20;
   0xC815; 0xBCF4; 0x20; 0xC5C6; 0xC74C; 0x20; 0x28; 0xBAA8; 0xB4E0; 0x20;
   0xB2E8; 0xACC4; 0x20; 0xC2E4; 0xD328; 0x29]%N.
(** "게임을 찾을 수 없습니다." *)
Definition MSG_NO_GAMES : jsstring :=
  [0xAC8C; 0xC784; 0xC744; 0x20; 0xCC3E; 0xC744; 0x20; 0xC218; 0x20; 0xC5C6;
   0xC2B5; 0xB2C8; 0xB2E4; 0x2E]%N.
(** "CDKeys URL이 필요합니다." *)
Definition MSG_URL_REQUIRED : jsstring :=
  [0x43; 0x44; 0x4B; 0x65; 0x79; 0x73; 0x20; 0x55; 0x52; 0x4C; 0xC774; 0x20;
   0xD544; 0xC694; 0xD569; 0xB2C8; 0xB2E4; 0x2E]%N.
(** "가격 비교 중 오류가 발생했습니다." *)
Definition MSG_COMPARE_ERROR : jsstring :=
  [0xAC00; 0xACA9; 0x20; 0xBE44; 0xAD50; 0x20; 0xC911; 0x20; 0xC624; 0xB958;
   0xAC00; 0x20; 0xBC1C; 0xC0DD; 0xD588; 0xC2B5; 0xB2C8; 0xB2E4; 0x2E]%N.

(** The test [steamPrice && steamPrice.final !== "무료"]. *)
Definition usableQuote (quote : option steamPrice) : option steamPrice :=
  match quote with
  | Some p => if bool_decide (sp_final p = MURYO) then None else Some p
  | None => None
  end.

(** The object literal [gameData] of the loop body. *)
Definition makeGameData (g : game) (quote : steamPrice) : gameData :=
  let cdkeysPrice := parsePrice (price g) in
  let steamOriginalPrice := parsePrice (sp_original quote) in
  let steamFinalPrice := parsePrice (sp_final quote) in
  let savings := sub steamOriginalPrice cdkeysPrice in
  {| gd_id := id g;
     gd_name := name g;
     gd_originalName := originalName g;
     exactName := match sp_exactName quote with
                  | [] => name g
                  | n => n
                  end;
     cdkeysPrice := cdkeysPrice;
     cdkeysUrl := url g;
     steamOriginalPrice := steamOriginalPrice;
     steamFinalPrice := steamFinalPrice;
     steamDiscount := sp_discount quote;
     savings := savings;
     savingsPercent :=
       Math_round (dmul (ddiv (to_double savings) (to_double steamOriginalPrice))
                        (double_of_Z 100));
     steamAppId := sp_appid quote;
     gd_source := sp_source quote;
     gd_steamFound := true |}.

Definition makeNotFound (g : game) : notFoundGame :=
  {| nf_game := g; nf_steamFound := false; reason := REASON_NOT_FOUND |}.

(** The [for ... of] loop over the listing, with the two arrays it pushes
    to. [fetchSteamPrice] catches its own failures and [parsePrice] is
    total on strings, so the [catch] of the loop body is never entered. *)
Fixpoint compareLoop (net : network) (minDifference : number) (cdkeysGames : list game)
    (comparisons : list gameData) (notFoundGames : list notFoundGame) (c : cache)
    : list gameData * list notFoundGame * cache :=
  match cdkeysGames with
  | [] => (comparisons, notFoundGames, c)
  | g :: rest =>
      let '(quote, c1) := fetchSteamPrice net (name g) c in
      match usableQuote quote with
      | Some quote =>
          let data := makeGameData g quote in
          if ge (savings data) minDifference
          then compareLoop net minDifference rest (comparisons ++ [data]) notFoundGames c1
          else compareLoop net minDifference rest comparisons notFoundGames c1
      | None =>
          compareLoop net minDifference rest comparisons
                      (notFoundGames ++ [makeNotFound g]) c1
      end
  end.

(** [(a, b) => b.savings - a.savings]. *)
Definition bySavingsDesc (a b : gameData) : number := sub (savings b) (savings a).

Definition api_compare (net : network) (req : compareRequest) (c : cache)
    : response * cache :=
  let minDifference := default (Fin 5000) (req_minDifference req) in
  match req_url req with
  | None | Some [] =>
      ({| status := 400; body := ErrorBody MSG_URL_REQUIRED None |}, c)
  | Some listingUrl =>
      match fetchCDKeysGames net listingUrl c with
      | (Throws message, c1) =>
          ({| status := 500; body := ErrorBody MSG_COMPARE_ERROR (Some message) |}, c1)
      | (Returns [], c1) =>
          ({| status := 200; body := EmptyBody true [] MSG_NO_GAMES |}, c1)
      | (Returns cdkeysGames, c1) =>
          let '(comparisons, notFoundGames, c2) :=
            compareLoop net minDifference cdkeysGames [] [] c1 in
          let sorted := sort bySavingsDesc comparisons in
          ({| status := 200;
              body := CompareBody true (length cdkeysGames) (length sorted)
                        (length notFoundGames) sorted notFoundGames |}, c2)
      end
  end.

(** ** Text constants

    The literals of the server that are not ASCII are written here as
    they stand in the source; a Rocq string literal holds their UTF-8
    bytes, and [utf8] turns these into UTF-16 code units (a code point
    above U+FFFF into its surrogate pair). *)

Fixpoint utf8_decode (bytes : list N) : jsstring :=
  match bytes with
  | [] => []
  | b0 :: rest =>
      if (b0 <? 0x80)%N then b0 :: utf8_decode rest
      else if (b0 <? 0xE0)%N then
        match rest with
        | b1 :: r => ((b0 - 0xC0) * 64 + (b1 - 0x80))%N :: utf8_decode r
        | _ => []
        end
      else if (b0 <? 0xF0)%N then
        match rest with
        | b1 :: b2 :: r =>
            ((b0 - 0xE0) * 4096 + (b1 - 0x80) * 64 + (b2 - 0x80))%N :: utf8_decode r
        | _ => []
        end
      else
        match rest with
        | b1 :: b2 :: b3 :: r =>
            let cp := ((b0 - 0xF0) * 262144 + (b1 - 0x80) * 4096
                       + (b2 - 0x80) * 64 + (b3 - 0x80))%N in
            (0xD800 + (cp - 0x10000) / 1024)%N
              :: (0xDC00 + (cp - 0x10000) mod 1024)%N :: utf8_decode r
        | _ => []
        end
  end.

Definition utf8 (s : string) : jsstring := utf8_decode (str s).


(** ** sanitizeProductName (lines 1280-1282) *)

(** The character class of the pattern: backslash, asterisk, question
    mark, double quote, angle brackets, bar, colon and slash. *)
Definition forbiddenClass (c : jschar) : bool :=
  ((c =? 0x5C) || (c =? 0x2A) || (c =? 0x3F) || (c =? 0x22) || (c =? 0x3C)
   || (c =? 0x3E) || (c =? 0x7C) || (c =? 0x3A) || (c =? 0x2F))%N.

Definition sanitizeProductName (name : jsstring) : jsstring :=
  trim (removeAll forbiddenClass name).

(** ** The store details used for the export

    [getSteamGameInfo] and [getKoreanGameName] request
    [appdetails?appids=...&cc=KR&l=korean], without the price filter of
    [fetchSteamPriceByAppId]: a second service of the store. An absent
    [name] or [header_image] is the empty string, an absent [developers]
    or [screenshots] the empty list. *)

Record screenshot := {
  path_full : jsstring
}.

Record storeDetails := {
  store_name : jsstring;
  header_image : jsstring;
  developers : list jsstring;
  store_screenshots : list screenshot
}.

Record storeData := {
  store_success : bool;
  store_data : option storeDetails
}.

Definition detailsService := N -> outcome (option storeData).

(** The result object of [getSteamGameInfo]. *)
Record steamInfo := {
  title : jsstring;
  headerImage : jsstring;
  developer : jsstring;
  screenshots : list jsstring
}.

Definition UNKNOWN_DEVELOPER : jsstring := str "Unknown Developer".

(** ** getSteamGameInfo (lines 1146-1207)

    A request that throws is caught: the result is then the same as for
    details that are absent or not successful. *)
Definition getSteamGameInfo (details : detailsService) (net : network)
    (gameName : jsstring) (c : cache) : steamInfo * cache :=
  match searchSteamGame net gameName c with
  | (None, c1) =>
      ({| title := gameName; headerImage := []; developer := []; screenshots := [] |}, c1)
  | (Some gameInfo, c1) =>
      match details (sr_appid gameInfo) with
      | Returns (Some {| store_success := true; store_data := Some gameData |}) =>
          ({| title := match store_name gameData with [] => gameName | n => n end;
              headerImage := header_image gameData;
              developer := match developers gameData with
                           | ((_ :: _) as first) :: _ => first
                           | _ => UNKNOWN_DEVELOPER
                           end;
              screenshots := map path_full (take 4 (store_screenshots gameData)) |}, c1)
      | _ =>
          ({| title := gameName; headerImage := [];
              developer := UNKNOWN_DEVELOPER; screenshots := [] |}, c1)
      end
  end.

(** ** getKoreanGameName (lines 1215-1250) *)
Definition getKoreanGameName (details : detailsService) (net : network)
    (englishName : jsstring) (c : cache) : jsstring * cache :=
  match searchSteamGame net englishName c with
  | (None, c1) => ([], c1)
  | (Some gameInfo, c1) =>
      match details (sr_appid gameInfo) with
      | Returns (Some {| store_success := true; store_data := Some gameData |}) =>
          match store_name gameData with
          | [] => ([], c1)
          | koreanName =>
              if bool_decide (koreanName = englishName) then ([], c1)
              else (koreanName, c1)
          end
      | _ => ([], c1)
      end
  end.

(** ** The export routes (lines 1450-1806) *)





Definition PRODUCT_PREFIX : jsstring := utf8 "[우회X 한국코드] ".
Definition PRODUCT_SUFFIX : jsstring := utf8 " 스팀 키".

(** The template of [productName], the same in both routes. *)
Definition productName (koreanName gameName : jsstring) : jsstring :=
  let cleanGameName := sanitizeProductName gameName in
  match koreanName with
  | [] => PRODUCT_PREFIX ++ cleanGameName ++ PRODUCT_SUFFIX
  | _ => PRODUCT_PREFIX ++ cleanGameName ++ [SPACE]
           ++ sanitizeProductName koreanName ++ PRODUCT_SUFFIX
  end.




(** *** /api/export-excel-management (lines 1688-1806) *)




(** *** /api/export-excel (lines 1450-1685) *)









(** *** /api/refresh-steam-info (lines 1287-1344) *)










(** *** /api/cache and /api/status (lines 1809-1857) *)

(** [cache.flushAll()]. *)
Definition flushAll (c : cache) : cache := empty_cache.


(** *** /api/test-clean-name (lines 1860-1886) *)

(** "게임명이 필요합니다." *)
Definition MSG_NAME_REQUIRED : jsstring := utf8 "게임명이 필요합니다.".

(** The answer of the route: a refusal, or the name with its cleaned form
    and the flag [changed]. [gameName] is absent when missing or
    empty. *)
Inductive cleanNameResult :=
  | CleanRefused (status : nat) (error : jsstring)
  | Cleaned (original cleaned : jsstring) (changed : bool).

Definition api_test_clean_name (gameName : option jsstring) : cleanNameResult :=
  match gameName with
  | None | Some [] => CleanRefused 400 MSG_NAME_REQUIRED
  | Some gameName =>
      let cleanedName := cleanGameName gameName in
      Cleaned gameName cleanedName (negb (bool_decide (gameName = cleanedName)))
  end.

(** ** Notions used to state the properties *)

(** [x] is the letter [c], in either case ([c] a lower-case letter). *)
Definition sameLetter (x c : jschar) : Prop := x = c \/ (x + 32)%N = c.

(** The text contains the letters f, r, e, e in a row, in any case. *)
Definition containsFree (s : jsstring) : Prop :=
  exists pre w post, s = pre ++ w ++ post /\ Forall2 sameLetter w (str "free").

(** A string of decimal digits. *)
Definition digits (ds : jsstring) : Prop := Forall (fun ch => isDigit ch = true) ds.

(** A price text made of a currency sign, digits, a point and digits. *)
Definition amountText (sym : jschar) (ip fp : jsstring) : jsstring :=
  sym :: ip ++ POINT :: fp.

(** [cleanLength / originalLength < 0.3] as the code computes it, on
    binary64 values. *)
Definition retentionBelow30_double (cleanLength originalLength : nat) : bool :=
  SFltb (ddiv (double_of_Z (Z.of_nat cleanLength)) (double_of_Z (Z.of_nat originalLength)))
        (parseFloat (str "0.3")).

(** The quotes of a run: for each listed product, in listing order, what
    [fetchSteamPrice] returned for it, the cache being threaded through
    the calls as in the loop. *)
Fixpoint quotes (net : network) (cdkeysGames : list game) (c : cache)
    : list (game * option steamPrice) * cache :=
  match cdkeysGames with
  | [] => ([], c)
  | g :: rest =>
      let '(quote, c1) := fetchSteamPrice net (name g) c in
      let '(qs, c2) := quotes net rest c1 in
      ((g, quote) :: qs, c2)
  end.


(** What a quoted product adds to the results. *)
Definition contribution (minDifference : number) (gq : game * option steamPrice)
    : list gameData :=
  match usableQuote gq.2 with
  | Some quote =>
      if ge (savings (makeGameData gq.1 quote)) minDifference
      then [makeGameData gq.1 quote] else []
  | None => []
  end.

(** What a quoted product adds to the unmatched list. *)
Definition unmatchedEntry (gq : game * option steamPrice) : list notFoundGame :=
  match usableQuote gq.2 with
  | Some _ => []
  | None => [makeNotFound gq.1]
  end.

(** Descending order of savings. *)
Definition savingsDescending (a b : gameData) : Prop :=
  ge (savings a) (savings b) = true.

(** The fields of a search result that come from the catalog. *)
Definition matchOf (r : searchResult) : item :=
  {| item_id := sr_appid r; item_name := sr_name r; item_type := sr_type r |}.

(** The candidate a search term yields: nothing when the request fails or
    returns no item; otherwise the first item of kind "game" or "dlc",
    or the first item when there is none of these kinds. *)
Definition candidate (net : network) (term : jsstring) : option item :=
  match storesearch net term with
  | Returns (first :: rest) =>
      Some (default first (List.find isGameOrDlc (first :: rest)))
  | _ => None
  end.

(** Resolution in the words of the specification: the variants are tried
    in order and the first one with a candidate decides. *)
Fixpoint resolveBySpec (net : network) (variants : list jsstring) : option item :=
  match variants with
  | [] => None
  | v :: rest =>
      match candidate net (trim v) with
      | Some it => Some it
      | None => resolveBySpec net rest
      end
  end.

(** A search cache holds only what a search of the same term yields. *)
Definition searchCacheSound (net : network) (c : cache) : Prop :=
  forall term r, steam_search_ c !! term = Some r -> candidate net term = Some (matchOf r).

(** The threshold a request asks for. *)
Definition threshold (req : compareRequest) : number :=
  default (Fin 5000) (req_minDifference req).

(** How the listing step of a request ends. *)
Inductive listingOutcome :=
  | NoUrl
  | ListingFailed (message : jsstring)
  | Listing (cdkeysGames : list game) (c : cache).

Definition listingOf (net : network) (req : compareRequest) (c : cache) : listingOutcome :=
  match req_url req with
  | None | Some [] => NoUrl
  | Some listingUrl =>
      match fetchCDKeysGames net listingUrl c with
      | (Throws message, _) => ListingFailed message
      | (Returns cdkeysGames, c1) => Listing cdkeysGames c1
      end
  end.

(** The quotes fetched while a request is served; none when the request
    ends before the loop. *)
Definition runQuotes (net : network) (req : compareRequest) (c : cache)
    : list (game * option steamPrice) :=
  match listingOf net req c with
  | Listing cdkeysGames c1 => (quotes net cdkeysGames c1).1
  | _ => []
  end.

(** The [games] and [notFound] arrays of a response; empty where the body
    has none. *)
Definition responseGames (r : response) : list gameData :=
  match body r with
  | CompareBody _ _ _ _ games _ => games
  | EmptyBody _ games _ => games
  | ErrorBody _ _ => []
  end.

Definition responseNotFound (r : response) : list notFoundGame :=
  match body r with
  | CompareBody _ _ _ _ _ notFound => notFound
  | _ => []
  end.

(** The property names of the full compare response of the
    specification. *)
Definition fullShape : list string :=
  ["success"; "totalGames"; "discountedGames"; "games"; "notFound"]%string.

(** A pattern whose last item is [$]: a match ends at the end of the
    input. *)
Fixpoint anchored (r : regex) : bool :=
  match r with
  | Eos => true
  | Cat _ r2 => anchored r2
  | _ => false
  end.


(** A product that is resolved but whose savings do not reach the
    threshold. *)
Definition filteredOut (minDifference : number) (gq : game * option steamPrice) : bool :=
  match usableQuote gq.2 with
  | Some quote => negb (ge (savings (makeGameData gq.1 quote)) minDifference)
  | None => false
  end.

(** Without leading and trailing white space. *)
Definition trimmed (s : jsstring) : Prop := trim s = s.

(** [u] is a contiguous part of [s]. *)
Definition partOf (u s : jsstring) : Prop := exists before after, s = before ++ u ++ after.





(** ** A small world to run the server in *)

Module Demo.

Definition product (title priceText : string) : listedItem :=
  {| li_originalName := str title;
     li_price := str priceText;
     li_url := str "https://www.cdkeys.com/" ++ str title;
     li_id := str "game_0_" ++ str title |}.

Definition wonPrice (amount : string) : jsstring := WON :: str amount.

Definition wonProduct (title amount : string) : listedItem :=
  {| li_originalName := str title;
     li_price := wonPrice amount;
     li_url := str "https://www.cdkeys.com/" ++ str title;
     li_id := str "game_0_" ++ str title |}.

Definition entry (appid : N) (title kind : string) : item :=
  {| item_id := appid; item_name := str title; item_type := str kind |}.

Definition priced (title : string) (initialCents finalCents percent : N) : outcome (option appData) :=
  Returns (Some {| success := true;
                   data := Some {| details_name := str title;
                                   price_overview :=
                                     Some {| initial := initialCents;
                                             final := finalCents;
                                             discount_percent := percent |} |} |}).

Definition unpriced (title : string) : outcome (option appData) :=
  Returns (Some {| success := true;
                   data := Some {| details_name := str title;
                                   price_overview := None |} |}).

(** A catalog with five titles: three priced ones, a free one and one
    whose price is below half a won. *)
Definition catalogSearch (term : jsstring) : outcome (list item) :=
  if bool_decide (term = str "Cyberpunk 2077") then
    Returns [entry 900 "Cyberpunk 2077 Soundtrack" "music"; entry 1091500 "Cyberpunk 2077" "game"]
  else if bool_decide (term = str "Hades") then Returns [entry 1145360 "Hades" "game"]
  else if bool_decide (term = str "Celeste") then Returns [entry 504230 "Celeste" "game"]
  else if bool_decide (term = str "Dota 2") then Returns [entry 570 "Dota 2" "game"]
  else if bool_decide (term = str "Penny Arcade") then Returns [entry 7 "Penny Arcade" "game"]
  else if bool_decide (term = str "Outage") then Throws (str "timeout of 10000ms exceeded")
  else Returns [].

Definition catalogDetails (appId : N) : outcome (option appData) :=
  if (appId =? 1091500)%N then priced "Cyberpunk 2077" 7900000 7900000 0
  else if (appId =? 1145360)%N then priced "Hades" 2600000 2600000 0
  else if (appId =? 504230)%N then priced "Celeste" 2050000 1025000 50
  else if (appId =? 570)%N then unpriced "Dota 2"
  else if (appId =? 7)%N then priced "Penny Arcade" 40 40 0
  else Returns None.

Definition store (listing : outcome (list listedItem)) : network :=
  {| page_evaluate := fun _ => listing;
     storesearch := catalogSearch;
     appdetails := catalogDetails |}.

Definition request (minDifference : option number) : compareRequest :=
  {| req_url := Some (str "https://www.cdkeys.com/pc"); req_minDifference := minDifference |}.

(** Scenario 1 of the specification. *)
Definition scenario1 : network :=
  store (Returns [product "Cyberpunk 2077 PC" "$29.99"]).

(** Three priced products, a free one and one the catalog does not
    know. *)
Definition mixed : network :=
  store (Returns [wonProduct "Hades PC" "25,900"; product "Dota 2" "$1.00";
                  wonProduct "Cyberpunk 2077 PC" "78,500"; product "Unknown Title" "$5.00";
                  wonProduct "Celeste" "20,450"]).

Definition emptyListing : network := store (Returns []).

Definition unreachable : network := store (Throws (str "net::ERR_NAME_NOT_RESOLVED")).

Definition penny : network := store (Returns [product "Penny Arcade" "Sold out"]).

(** Two of the products of [mixed] with the quotes the catalog gives
    for them. *)
Definition hades : game := processGame (wonProduct "Hades PC" "25,900").

Definition hadesQuote : steamPrice :=
  {| sp_exactName := str "Hades";
     sp_appid := 1145360;
     sp_original := wonPrice "26,000";
     sp_final := wonPrice "26,000";
     sp_discount := None;
     sp_source := Some (sourceLabel 0 (str "Hades")) |}.



(** A listing with a product whose price text holds no amount. *)
Definition noAmount : network :=
  store (Returns [wonProduct "Hades PC" "25,900"; product "Celeste" "$TBD"]).

(** A store that answers nothing. *)
Definition offline : network :=
  {| page_evaluate := fun _ => Throws (str "net::ERR_INTERNET_DISCONNECTED");
     storesearch := fun _ => Throws (str "timeout of 10000ms exceeded");
     appdetails := fun _ => Throws (str "timeout of 15000ms exceeded") |}.

End Demo.

(** ** Facts about the runtime model *)

Section StringFacts.

Lemma includes_cons c s p :
  includes (c :: s) p = startsWith p (c :: s) || includes s p.
Proof. reflexivity. Qed.

Lemma startsWith_app p s : startsWith p (p ++ s) = true.
Proof.
  induction p as [|a p IH]; simpl; [reflexivity|].
  rewrite N.eqb_refl. exact IH.
Qed.

Lemma startsWith_inv p s : startsWith p s = true -> exists post, s = p ++ post.
Proof.
  revert s. induction p as [|a p IH]; intros s H.
  - exists s. reflexivity.
  - destruct s as [|b s]; simpl in H; [discriminate|].
    apply andb_true_iff in H as [Hab Hps].
    apply N.eqb_eq in Hab. subst b.
    destruct (IH _ Hps) as [post ->]. exists post. reflexivity.
Qed.

Lemma includes_app_r pre s p : includes s p = true -> includes (pre ++ s) p = true.
Proof.
  intros H. induction pre as [|a pre IH]; [exact H|].
  change (includes (a :: (pre ++ s)) p = true).
  rewrite includes_cons, IH. apply orb_true_r.
Qed.

Lemma includes_prefix p post : includes (p ++ post) p = true.
Proof.
  destruct (p ++ post) as [|c s] eqn:E.
  - destruct p; [reflexivity|discriminate].
  - rewrite includes_cons, <- E, startsWith_app. reflexivity.
Qed.

Lemma includes_intro pre p post : includes (pre ++ p ++ post) p = true.
Proof. apply includes_app_r, includes_prefix. Qed.

Lemma includes_inv s p :
  includes s p = true -> exists pre post, s = pre ++ p ++ post.
Proof.
  induction s as [|c s IH]; intros H.
  - simpl in H. rewrite orb_false_r in H.
    apply startsWith_inv in H as [post ->]. exists [], post. reflexivity.
  - rewrite includes_cons in H. apply orb_true_iff in H as [H|H].
    + apply startsWith_inv in H as [post ->]. exists [], post. reflexivity.
    + destruct (IH H) as (pre & post & ->). exists (c :: pre), post. reflexivity.
Qed.

Lemma includes_singleton s (c : jschar) : includes s [c] = true <-> c ∈ s.
Proof.
  split.
  - intros H. apply includes_inv in H as (pre & post & ->).
    apply elem_of_app. right. apply elem_of_cons. left. reflexivity.
  - intros H. apply list_elem_of_split in H as (pre & post & ->).
    apply (includes_intro pre [c] post).
Qed.

Lemma includes_singleton_false s (c : jschar) : c ∉ s -> includes s [c] = false.
Proof.
  intros H. destruct (includes s [c]) eqn:E; [|reflexivity].
  apply includes_singleton in E. contradiction.
Qed.

Lemma lowerChar_letter x c :
  (0x61 <= c <= 0x7A)%N -> lowerChar x = c <-> sameLetter x c.
Proof.
  intros Hc. unfold lowerChar, sameLetter.
  destruct ((0x41 <=? x)%N && (x <=? 0x5A)%N) eqn:E.
  - apply andb_true_iff in E as [E1 E2].
    apply N.leb_le in E1, E2. split; [auto|]. intros [->| <-]; lia.
  - apply andb_false_iff in E. split; [auto|]. intros [->| <-]; [reflexivity|].
    destruct E as [E|E]; apply N.leb_gt in E; lia.
Qed.

Lemma toLowerCase_free w : toLowerCase w = str "free" <-> Forall2 sameLetter w (str "free").
Proof.
  assert (L : forall x c, c ∈ str "free" -> lowerChar x = c <-> sameLetter x c).
  { intros x c Hc. apply lowerChar_letter.
    cbv in Hc. repeat (apply elem_of_cons in Hc as [->|Hc]; [lia|]).
    inversion Hc. }
  generalize dependent (str "free"). intros p L. revert p L.
  induction w as [|x w IH]; intros p L.
  - split; intros H; [cbn in H; subst p; constructor|inversion H; reflexivity].
  - destruct p as [|c p].
    + split; intros H; [discriminate|inversion H].
    + assert (Lp : forall x c, c ∈ p -> lowerChar x = c <-> sameLetter x c).
      { intros y d Hd. apply L. apply elem_of_cons. right. exact Hd. }
      specialize (IH p Lp).
      assert (Lc : lowerChar x = c <-> sameLetter x c).
      { apply L. apply elem_of_cons. left. reflexivity. }
      split; intros H.
      * cbn in H. injection H as H1 H2. constructor; [apply Lc, H1|apply IH, H2].
      * inversion H; subst. cbn. f_equal; [apply Lc; assumption|apply IH; assumption].
Qed.

Lemma includes_free s :
  includes (toLowerCase s) (str "free") = true <-> containsFree s.
Proof.
  split.
  - intros H. apply includes_inv in H as (pre & post & H).
    unfold toLowerCase in H.
    apply fmap_app_inv in H as (s1 & s23 & H1 & H23 & ->).
    symmetry in H23.
    apply fmap_app_inv in H23 as (s2 & s3 & H2 & H3 & ->).
    exists s1, s2, s3. split; [reflexivity|].
    apply toLowerCase_free. symmetry. exact H2.
  - intros (pre & w & post & -> & Hw).
    apply toLowerCase_free in Hw.
    unfold toLowerCase in *. rewrite !map_app, Hw.
    apply includes_intro.
Qed.

End StringFacts.

Section NumberFacts.

Lemma ge_not_nan x y : ge x y = true -> x <> NaN /\ y <> NaN.
Proof. destruct x, y; simpl; intros H; split; congruence. Qed.

Lemma ge_trans x y z : ge x y = true -> ge y z = true -> ge x z = true.
Proof.
  destruct x, y, z; simpl; try congruence.
  rewrite !Z.leb_le. lia.
Qed.

Lemma gt_ge x y : gt x y = true -> ge x y = true.
Proof.
  destruct x, y; simpl; try congruence.
  rewrite Z.ltb_lt, Z.leb_le. lia.
Qed.

Lemma not_gt_ge x y : x <> NaN -> y <> NaN -> gt y x = false -> ge x y = true.
Proof.
  destruct x, y; simpl; try congruence.
  rewrite Z.ltb_ge, Z.leb_le. lia.
Qed.

(** On numbers that are not NaN the comparator [b - a], read through
    SortCompare, is positive exactly when [b] exceeds [a]. *)
Lemma descending_comparator x y :
  x <> NaN -> y <> NaN ->
  gt (match sub y x with NaN => Fin 0 | v => v end) (Fin 0) = gt y x.
Proof.
  destruct x as [| | |a], y as [| | |b]; simpl; intros Hx Hy;
    try congruence; try reflexivity.
  destruct (0 <? b - a) eqn:E1, (a <? b) eqn:E2; try reflexivity;
    rewrite ?Z.ltb_lt, ?Z.ltb_ge in *; lia.
Qed.

End NumberFacts.

Section SortFacts.
Context {A : Type} (key : A -> number).

Let comparefn (a b : A) : number := sub (key b) (key a).
Let descending (a b : A) : Prop := ge (key a) (key b) = true.

Lemma sort_insert_perm x l : sort_insert comparefn x l ≡ₚ x :: l.
Proof.
  induction l as [|y l IH]; simpl; [reflexivity|].
  destruct (gt _ _); [|reflexivity].
  rewrite IH. apply Permutation_swap.
Qed.

Lemma sort_perm l : sort comparefn l ≡ₚ l.
Proof.
  induction l as [|x l IH]; simpl; [reflexivity|].
  rewrite sort_insert_perm, IH. reflexivity.
Qed.

Lemma sort_insert_sorted x l :
  key x <> NaN -> Forall (fun a => key a <> NaN) l ->
  StronglySorted descending l ->
  StronglySorted descending (sort_insert comparefn x l).
Proof.
  intros Hx Hl Hs. induction Hs as [|y l Hs IH Hy]; simpl.
  - repeat constructor.
  - apply Forall_cons in Hl as [Hyn Hl].
    unfold SortCompare, comparefn at 1.
    rewrite (descending_comparator (key x) (key y)) by assumption.
    destruct (gt (key y) (key x)) eqn:E.
    + constructor; [apply IH, Hl|].
      rewrite (sort_insert_perm x l). constructor; [|exact Hy].
      apply gt_ge, E.
    + assert (Hxy : descending x y) by (apply not_gt_ge; assumption).
      constructor; [constructor; assumption|].
      constructor; [exact Hxy|].
      eapply Forall_impl; [exact Hy|].
      intros z Hz. eapply ge_trans; eassumption.
Qed.

Lemma sort_sorted l :
  Forall (fun a => key a <> NaN) l -> StronglySorted descending (sort comparefn l).
Proof.
  induction l as [|x l IH]; intros Hl; simpl; [constructor|].
  apply Forall_cons in Hl as [Hx Hl].
  apply sort_insert_sorted; [exact Hx| |apply IH, Hl].
  rewrite sort_perm. exact Hl.
Qed.

End SortFacts.

(** ** Facts about the compare loop *)

Section LoopFacts.
Variable net : network.
Variable minDifference : number.

Lemma compareLoop_quotes cdkeysGames comparisons notFoundGames c :
  compareLoop net minDifference cdkeysGames comparisons notFoundGames c =
    (comparisons ++ flat_map (contribution minDifference) (quotes net cdkeysGames c).1,
     notFoundGames ++ flat_map unmatchedEntry (quotes net cdkeysGames c).1,
     (quotes net cdkeysGames c).2).
Proof.
  revert comparisons notFoundGames c.
  induction cdkeysGames as [|g rest IH]; intros comparisons notFoundGames c;
    cbn [compareLoop quotes].
  - cbn. rewrite !app_nil_r. reflexivity.
  - destruct (fetchSteamPrice net (name g) c) as [quote c1] eqn:Eq.
    specialize (IH) with (c := c1).
    destruct (quotes net rest c1) as [qs c2] eqn:Eqs.
    cbn [fst snd flat_map] in IH |- *.
    unfold contribution at 1, unmatchedEntry at 1. cbn [fst snd].
    destruct (usableQuote quote) as [p|] eqn:Eu.
    + destruct (ge (savings (makeGameData g p)) minDifference) eqn:Eg;
        rewrite IH, ?app_nil_l, <- ?app_assoc; reflexivity.
    + rewrite IH, ?app_nil_l, <- ?app_assoc. reflexivity.
Qed.

Lemma quotes_products cdkeysGames c : map fst (quotes net cdkeysGames c).1 = cdkeysGames.
Proof.
  revert c. induction cdkeysGames as [|g rest IH]; intros c; simpl; [reflexivity|].
  destruct (fetchSteamPrice net (name g) c) as [quote c1].
  specialize (IH c1). destruct (quotes net rest c1) as [qs c2].
  simpl in *. f_equal. exact IH.
Qed.

Lemma contribution_savings gq d :
  d ∈ contribution minDifference gq ->
  ge (savings d) minDifference = true /\
  exists quote, usableQuote gq.2 = Some quote /\ d = makeGameData gq.1 quote.
Proof.
  unfold contribution. destruct (usableQuote gq.2) as [quote|]; [|inversion 1].
  destruct (ge _ _) eqn:E; [|inversion 1].
  intros H. apply list_elem_of_singleton in H. subst d. eauto.
Qed.



Lemma one_array_per_product qs :
  (length (flat_map (contribution minDifference) qs)
   + length (flat_map unmatchedEntry qs) <= length qs)%nat.
Proof.
  induction qs as [|gq qs IH]; [reflexivity|].
  cbn [flat_map]. rewrite !length_app.
  unfold contribution at 1, unmatchedEntry at 1.
  destruct (usableQuote gq.2) as [quote|]; [destruct (ge _ _)|];
    cbn [length]; lia.
Qed.


End LoopFacts.

(** ** The compare route as a function of the quotes of the run *)

Section RunFacts.
Variable net : network.
Variable req : compareRequest.
Variable c : cache.

Lemma api_compare_games :
  responseGames (api_compare net req c).1 =
    sort bySavingsDesc (flat_map (contribution (threshold req)) (runQuotes net req c)).
Proof.
  unfold api_compare, runQuotes, listingOf, threshold.
  destruct (req_url req) as [[|ch u]|]; try reflexivity.
  destruct (fetchCDKeysGames net (ch :: u) c) as [[message|[|g l]] c1]; try reflexivity.
  rewrite compareLoop_quotes. reflexivity.
Qed.

Lemma api_compare_notFound :
  responseNotFound (api_compare net req c).1 =
    flat_map unmatchedEntry (runQuotes net req c).
Proof.
  unfold api_compare, runQuotes, listingOf, threshold.
  destruct (req_url req) as [[|ch u]|]; try reflexivity.
  destruct (fetchCDKeysGames net (ch :: u) c) as [[message|[|g l]] c1]; try reflexivity.
  rewrite compareLoop_quotes. reflexivity.
Qed.

Lemma contributions_not_nan :
  Forall (fun d => savings d <> NaN)
         (flat_map (contribution (threshold req)) (runQuotes net req c)).
Proof.
  apply Forall_forall. intros d Hd.
  apply list_elem_of_In, in_flat_map in Hd as (gq & _ & Hd).
  apply list_elem_of_In, contribution_savings in Hd as [Hge _].
  apply ge_not_nan in Hge. tauto.
Qed.

Lemma elem_of_games d :
  d ∈ responseGames (api_compare net req c).1 <->
  exists gq, gq ∈ runQuotes net req c /\ d ∈ contribution (threshold req) gq.
Proof.
  rewrite api_compare_games, (sort_perm savings).
  rewrite list_elem_of_In, in_flat_map.
  split; intros (gq & H1 & H2); exists gq;
    rewrite ?list_elem_of_In in *; tauto.
Qed.

End RunFacts.

(** ** Properties of the compare route *)

(** C1. Every element of the [games] array of a compare response was
    built from a listed product and its usable quote, and its [savings]
    is the Steam original price minus the CDKeys price; a product with a
    usable (resolved, not free) quote is in [games] exactly when its
    savings reaches the threshold of the request. *)
Theorem compare_savings_threshold (net : network) (req : compareRequest) (c : cache) :
  let games := responseGames (api_compare net req c).1 in
  (forall d, d ∈ games ->
     savings d = sub (steamOriginalPrice d) (cdkeysPrice d) /\
     exists g q quote,
       (g, q) ∈ runQuotes net req c /\ usableQuote q = Some quote /\
       d = makeGameData g quote /\
       steamOriginalPrice d = parsePrice (sp_original quote) /\
       cdkeysPrice d = parsePrice (price g)) /\
  (forall g q quote,
     (g, q) ∈ runQuotes net req c -> usableQuote q = Some quote ->
     (makeGameData g quote ∈ games <->
      ge (sub (parsePrice (sp_original quote)) (parsePrice (price g))) (threshold req) = true)).
Proof.
  intros games. subst games. split.
  - intros d Hd. apply elem_of_games in Hd as ([g q] & Hin & Hd).
    apply contribution_savings in Hd as (_ & quote & Hu & ->).
    split; [reflexivity|]. exists g, q, quote. auto.
  - intros g q quote Hin Hu. rewrite elem_of_games. split.
    + intros (gq & _ & Hd). apply contribution_savings in Hd as [Hge _]. exact Hge.
    + intros Hge. exists (g, q). split; [exact Hin|].
      unfold contribution. cbn [fst snd]. rewrite Hu.
      change (savings (makeGameData g quote))
        with (sub (parsePrice (sp_original quote)) (parsePrice (price g))).
      rewrite Hge. apply list_elem_of_singleton. reflexivity.
Qed.

(** C9. The [games] array of a compare response is a rearrangement of
    the results found, in descending order of savings. In the demo world
    the products found have savings 100, 500 and 50, in listing order, and
    the response lists them as 500, 100, 50. *)
Theorem compare_sorted_descending (net : network) (req : compareRequest) (c : cache) :
  let games := responseGames (api_compare net req c).1 in
  StronglySorted savingsDescending games /\
  games ≡ₚ flat_map (contribution (threshold req)) (runQuotes net req c) /\
  map savings (flat_map (contribution (Fin 0))
                 (runQuotes Demo.mixed (Demo.request (Some (Fin 0))) empty_cache))
    = [Fin 100; Fin 500; Fin 50] /\
  map savings (responseGames (api_compare Demo.mixed (Demo.request (Some (Fin 0))) empty_cache).1)
    = [Fin 500; Fin 100; Fin 50].
Proof.
  intros games. subst games. rewrite api_compare_games.
  split; [|split; [|split]].
  - apply (sort_sorted savings), contributions_not_nan.
  - apply (sort_perm savings).
  - vm_compute. reflexivity.
  - vm_compute. reflexivity.
Qed.



(** C5, as the code has it. A compare request ends in one of four ways:
    without a url it is refused with [{error}]; when the listing cannot
    be fetched it fails with [{error, details}] and no data; when the
    listing is empty it succeeds with the short body
    [{success, games, message}], [games] being empty; and when the
    listing has products it succeeds with the full body
    [{success, totalGames, discountedGames, notFoundGames, games,
    notFound}], where [totalGames] counts the listing, the two other
    counts are the lengths of the arrays, and no product is in both
    arrays. *)
Theorem compare_response_shape (net : network) (req : compareRequest) (c : cache) :
  let r := (api_compare net req c).1 in
  match listingOf net req c with
  | NoUrl => r = {| status := 400; body := ErrorBody MSG_URL_REQUIRED None |}
  | ListingFailed message =>
      r = {| status := 500; body := ErrorBody MSG_COMPARE_ERROR (Some message) |}
  | Listing [] _ =>
      r = {| status := 200; body := EmptyBody true [] MSG_NO_GAMES |} /\
      keys (body r) = ["success"; "games"; "message"]%string
  | Listing cdkeysGames _ =>
      status r = 200%nat /\
      body r = CompareBody true (length cdkeysGames) (length (responseGames r))
                 (length (responseNotFound r)) (responseGames r) (responseNotFound r) /\
      (length (responseGames r) + length (responseNotFound r) <= length cdkeysGames)%nat /\
      fullShape ⊆ keys (body r)
  end.
Proof.
  intros r. subst r.
  pose proof (api_compare_games net req c) as Hg.
  pose proof (api_compare_notFound net req c) as Hn.
  revert Hg Hn. unfold runQuotes, api_compare, listingOf.
  destruct (req_url req) as [[|ch u]|]; try reflexivity.
  destruct (fetchCDKeysGames net (ch :: u) c) as [[message|[|g l]] c1]; try reflexivity.
  - intros _ _. split; reflexivity.
  - destruct (compareLoop _ _ _ _ _ _) as [[comparisons notFoundGames] c2].
    cbn [fst status body responseGames responseNotFound].
    intros Hg Hn. repeat split.
    + rewrite Hg, Hn, (sort_perm savings).
      rewrite <- (quotes_products net (g :: l) c1) at 3. rewrite length_map.
      apply one_array_per_product.
    + intros key Hkey. unfold fullShape in Hkey.
      repeat (apply elem_of_cons in Hkey as [->|Hkey]; [repeat constructor|]).
      inversion Hkey.
Qed.

(** C5, counterexample. For a listing without products the response is
    neither an error nor of the full shape: it has no [totalGames], no
    [discountedGames] and no [notFound]. *)
Lemma compare_empty_listing_short_body :
  let r := (api_compare Demo.emptyListing (Demo.request None) empty_cache).1 in
  listingOf Demo.emptyListing (Demo.request None) empty_cache
    = Listing [] (set_cdkeys (str "https://www.cdkeys.com/pc") [] empty_cache) /\
  status r = 200%nat /\
  keys (body r) = ["success"; "games"; "message"]%string /\
  ~ (fullShape ⊆ keys (body r)) /\
  (forall error details, body r <> ErrorBody error details).
Proof.
  cbv zeta. repeat split.
  - vm_compute. intros H. specialize (H "totalGames"%string).
    assert (Hin : "totalGames"%string ∈ fullShape) by (unfold fullShape; repeat constructor).
    specialize (H Hin). vm_compute in H.
    repeat (apply elem_of_cons in H as [H|H]; [discriminate|]). inversion H.
  - intros error details. vm_compute. discriminate.
Qed.


(** Scenario 1 of the specification: "Cyberpunk 2077 PC" at "$29.99"
    against an original price of ₩79,000. *)
Example scenario1_response :
  map (fun d => (cdkeysPrice d, steamOriginalPrice d, savings d, savingsPercent d))
      (responseGames (api_compare Demo.scenario1 (Demo.request None) empty_cache).1)
    = [(Fin 39587, Fin 79000, Fin 39413, Fin 50)].
Proof. vm_compute. reflexivity. Qed.

(** C6, at the failing input. The store reports 40 hundredths for
    "Penny Arcade": the formatted price is "₩0", which is not the free
    sentinel, so the product passes the exclusion; its original price
    parses to 0, and with a threshold of 0 it is included with a
    percentage computed as 0 / 0. *)
Lemma penny_quote_divides_by_zero :
  let r := (api_compare Demo.penny (Demo.request (Some (Fin 0))) empty_cache).1 in
  formatPriceFromCents 40 = WON :: str "0" /\
  formatPriceFromCents 40 <> MURYO /\
  map (fun d => (steamOriginalPrice d, savings d, savingsPercent d)) (responseGames r)
    = [(Fin 0, Fin 0, NaN)] /\
  responseNotFound r = [] /\
  forallb (fun cents =>
             bool_decide (parsePrice (formatPriceFromCents cents) = Fin 0)
             && negb (bool_decide (formatPriceFromCents cents = MURYO)))
          (map N.of_nat (List.seq 1 49)) = true.
Proof.
  cbv zeta. split; [vm_compute; reflexivity|].
  split; [vm_compute; discriminate|].
  split; [vm_compute; reflexivity|].
  split; vm_compute; reflexivity.
Qed.

(** ** Properties of cleanGameName *)

(** The comparison of the retention ratio with 0.3, computed on binary64
    values as the code does, agrees with the exact comparison used in
    [cleanGameName]; checked here for all lengths up to 128. *)
Lemma retentionBelow30_double_agrees :
  forallb (fun originalLength =>
    forallb (fun cleanLength =>
      Bool.eqb (retentionBelow30_double cleanLength originalLength)
               (retentionBelow30 cleanLength originalLength))
      (List.seq 0 129))
    (List.seq 0 129) = true.
Proof. vm_compute. reflexivity. Qed.

(** C4. When the title left by the stripping rules is shorter than 3
    code units, or keeps less than 30% of the length of the raw title,
    [cleanGameName] returns the raw title as it was given. *)
Theorem cleanGameName_safety (T : jsstring) :
  let stripped := applyPatterns platformPatterns (trim T) in
  (length stripped < 3 \/ 10 * length stripped < 3 * length T)%nat ->
  cleanGameName T = T.
Proof.
  intros stripped H. unfold cleanGameName, retentionBelow30.
  fold stripped.
  destruct H as [H|H].
  - apply Nat.ltb_lt in H. rewrite H. reflexivity.
  - apply Nat.ltb_lt in H. rewrite H, orb_true_r. reflexivity.
Qed.

Lemma cleanGameName_safety_witness :
  applyPatterns platformPatterns (trim (str "AB PC")) = str "AB" /\
  cleanGameName (str "AB PC") = str "AB PC".
Proof.
  split; [vm_compute; reflexivity|].
  apply (cleanGameName_safety (str "AB PC")).
  left. vm_compute. lia.
Defined.

(** ** Properties of parsePrice *)

(** C10. A price text that contains the letters "free" anywhere, in any
    case, parses to 0, whatever currency symbol and amount it also
    contains. *)
Theorem parsePrice_free_anywhere (priceText : jsstring) :
  containsFree priceText -> parsePrice priceText = Fin 0.
Proof.
  intros H. apply includes_free in H. unfold parsePrice.
  rewrite H, orb_true_r.
  destruct (bool_decide (priceText = [])); reflexivity.
Qed.

Lemma parsePrice_free_anywhere_witness :
  parsePrice (str "$5.99") = Fin 7907 /\
  parsePrice (str "Freedom Fighters $5.99") = Fin 0.
Proof.
  split; [vm_compute; reflexivity|].
  apply (parsePrice_free_anywhere (str "Freedom Fighters $5.99")).
  exists [], (str "Free"), (str "dom Fighters $5.99").
  split; [reflexivity|].
  repeat (constructor; [first [left; reflexivity | right; reflexivity]|]).
  constructor.
Defined.

(** C3, counterexample. "$5.99 free" contains the dollar sign with the
    amount 5.99 and no won sign; round(5.99 * 1320) is 7907, and the
    parser returns 0. *)
Lemma parsePrice_foreign_free_text :
  let priceText := str "$5.99 free" in
  (DOLLAR ∈ priceText) /\ (WON ∉ priceText) /\
  parseFloat (removeAll dollarClass priceText) = parseFloat (str "5.99") /\
  Math_round (dmul (parseFloat (str "5.99")) (double_of_Z 1320)) = Fin 7907 /\
  parsePrice priceText = Fin 0 /\
  parsePrice priceText
    <> Math_round (dmul (parseFloat (removeAll dollarClass priceText)) (double_of_Z 1320)).
Proof.
  cbv zeta. repeat split; try (vm_compute; reflexivity).
  - apply includes_singleton. vm_compute. reflexivity.
  - intros H. apply includes_singleton in H. vm_compute in H. discriminate.
  - vm_compute. discriminate.
Qed.

(** The branches of [parsePrice] for a text without the letters "free",
    by the currency signs the text contains. *)
Lemma parsePrice_by_symbol (priceText : jsstring) :
  ~ containsFree priceText ->
  (WON ∈ priceText -> parsePrice priceText = parseInt (removeAll wonClass priceText)) /\
  (WON ∉ priceText -> DOLLAR ∈ priceText ->
     parsePrice priceText =
       Math_round (dmul (parseFloat (removeAll dollarClass priceText)) (double_of_Z 1320))) /\
  (WON ∉ priceText -> DOLLAR ∉ priceText -> EURO ∈ priceText ->
     parsePrice priceText =
       Math_round (dmul (parseFloat (removeAll euroClass priceText)) (double_of_Z 1430))) /\
  (WON ∉ priceText -> DOLLAR ∉ priceText -> EURO ∉ priceText -> POUND ∈ priceText ->
     parsePrice priceText =
       Math_round (dmul (parseFloat (removeAll poundClass priceText)) (double_of_Z 1670))) /\
  (WON ∉ priceText -> DOLLAR ∉ priceText -> EURO ∉ priceText -> POUND ∉ priceText ->
     parsePrice priceText = Fin 0).
Proof.
  intros Hfree.
  assert (Hf : includes (toLowerCase priceText) (str "free") = false).
  { destruct (includes _ _) eqn:E; [|reflexivity].
    apply includes_free in E. contradiction. }
  assert (Hsym : forall sym, sym ∈ priceText -> sym ∉ MURYO ->
                   bool_decide (priceText = []) = false /\
                   bool_decide (priceText = MURYO) = false).
  { intros sym Hin Hm. split; apply bool_decide_eq_false_2; intros ->;
      [inversion Hin|contradiction]. }
  assert (Hm : forall sym, sym ∈ MURYO -> sym = 0xBB34%N \/ sym = 0xB8CC%N).
  { intros sym H. unfold MURYO in H.
    repeat (apply elem_of_cons in H as [H|H]; [auto|]). inversion H. }
  unfold parsePrice. rewrite Hf.
  repeat split.
  - intros Hw. destruct (Hsym WON Hw) as [-> ->].
    { intros H. apply Hm in H as [H|H]; discriminate. }
    cbn [orb]. apply includes_singleton in Hw. rewrite Hw. reflexivity.
  - intros Hw Hd. destruct (Hsym DOLLAR Hd) as [-> ->].
    { intros H. apply Hm in H as [H|H]; discriminate. }
    cbn [orb]. rewrite (includes_singleton_false _ _ Hw).
    apply includes_singleton in Hd. rewrite Hd. reflexivity.
  - intros Hw Hd He. destruct (Hsym EURO He) as [-> ->].
    { intros H. apply Hm in H as [H|H]; discriminate. }
    cbn [orb]. rewrite (includes_singleton_false _ _ Hw), (includes_singleton_false _ _ Hd).
    apply includes_singleton in He. rewrite He. reflexivity.
  - intros Hw Hd He Hp. destruct (Hsym POUND Hp) as [-> ->].
    { intros H. apply Hm in H as [H|H]; discriminate. }
    cbn [orb]. rewrite (includes_singleton_false _ _ Hw), (includes_singleton_false _ _ Hd),
      (includes_singleton_false _ _ He).
    apply includes_singleton in Hp. rewrite Hp. reflexivity.
  - intros Hw Hd He Hp.
    rewrite (includes_singleton_false _ _ Hw), (includes_singleton_false _ _ Hd),
      (includes_singleton_false _ _ He), (includes_singleton_false _ _ Hp).
    rewrite orb_false_r.
    destruct (bool_decide (priceText = [])), (bool_decide (priceText = MURYO)); reflexivity.
Qed.

(** *** Amounts written in digits *)

Section AmountFacts.

Lemma span_digits ds rest :
  digits ds ->
  match rest with [] => True | ch :: _ => isDigit ch = false end ->
  span isDigit (ds ++ rest) = (ds, rest).
Proof.
  intros Hds Hrest. induction Hds as [|d ds Hd _ IH]; cbn [app span].
  - destruct rest as [|ch rest]; [reflexivity|]. cbn [span]. rewrite Hrest. reflexivity.
  - cbv beta in Hd. rewrite Hd, IH. reflexivity.
Qed.

Lemma digit_range ch : isDigit ch = true <-> (0x30 <= ch <= 0x39)%N.
Proof.
  unfold isDigit. rewrite andb_true_iff, !N.leb_le. reflexivity.
Qed.

Lemma digit_not_space ch : isDigit ch = true -> isWhiteSpace ch = false.
Proof.
  intros H. apply digit_range in H. unfold isWhiteSpace.
  repeat match goal with
         | |- context [(?a =? ?b)%N] =>
             replace (a =? b)%N with false by (symmetry; apply N.eqb_neq; lia)
         | |- context [(?a <=? ?b)%N] =>
             first [replace (a <=? b)%N with false by (symmetry; apply N.leb_gt; lia)
                   |replace (a <=? b)%N with true by (symmetry; apply N.leb_le; lia)]
         end.
  reflexivity.
Qed.

Lemma parseFloat_decimal ip fp :
  ip <> [] -> digits ip -> digits fp ->
  parseFloat (ip ++ POINT :: fp) =
    decimal_to_double false (digitsValue 10 digitValue (ip ++ fp)) (- Z.of_nat (length fp)).
Proof.
  intros Hne Hip Hfp.
  destruct ip as [|d ip]; [contradiction|].
  pose proof Hip as Hip'.
  apply Forall_cons in Hip' as [Hd _].
  pose proof (digit_not_space d Hd) as Hw. apply digit_range in Hd.
  unfold parseFloat. cbn [app trimStart]. rewrite Hw.
  cbn [readSign].
  replace (d =? 0x2D)%N with false by (symmetry; apply N.eqb_neq; lia).
  replace (d =? 0x2B)%N with false by (symmetry; apply N.eqb_neq; lia).
  replace (startsWith (str "Infinity") (d :: ip ++ POINT :: fp)) with false.
  2:{ change (str "Infinity") with (0x49%N :: str "nfinity").
      change (startsWith (0x49%N :: str "nfinity") (d :: ip ++ POINT :: fp))
        with ((0x49 =? d)%N && startsWith (str "nfinity") (ip ++ POINT :: fp)).
      replace (0x49 =? d)%N with false by (symmetry; apply N.eqb_neq; lia).
      reflexivity. }
  change (d :: ip ++ POINT :: fp) with ((d :: ip) ++ POINT :: fp).
  rewrite (span_digits (d :: ip) (POINT :: fp) Hip eq_refl).
  replace (POINT =? 0x2E)%N with true by reflexivity.
  rewrite <- (app_nil_r fp) at 1.
  rewrite (span_digits fp [] Hfp I).
  cbn [app readExponent]. reflexivity.
Qed.

Lemma containsFree_has_e s : containsFree s -> 0x65%N ∈ s \/ 0x45%N ∈ s.
Proof.
  intros (a & w & b & -> & Hw).
  change (str "free") with [0x66; 0x72; 0x65; 0x65]%N in Hw.
  inversion Hw as [|x1 c1 w1 p1 _ H1]; subst.
  inversion H1 as [|x2 c2 w2 p2 _ H2]; subst.
  inversion H2 as [|x3 c3 w3 p3 H3 _]; subst.
  assert (Hin : x3 ∈ a ++ (x1 :: x2 :: x3 :: w3) ++ b).
  { apply elem_of_app. right. apply elem_of_app. left.
    do 2 apply list_elem_of_further. apply list_elem_of_here. }
  destruct H3 as [->|H3]; [left; exact Hin|right].
  assert (x3 = 0x45%N) as <- by lia. exact Hin.
Qed.

Lemma removeAll_digits (cls : jschar -> bool) ds :
  (forall ch, isDigit ch = true -> cls ch = false) -> digits ds -> removeAll cls ds = ds.
Proof.
  intros Hcls. induction 1 as [|d ds Hd _ IH]; [reflexivity|].
  unfold removeAll, jsstring in *. rewrite filter_cons_True by (apply Hcls, Hd).
  rewrite IH. reflexivity.
Qed.

Lemma removeAll_amount (cls : jschar -> bool) (sym : jschar) ip fp :
  cls sym = true -> cls POINT = false ->
  (forall ch, isDigit ch = true -> cls ch = false) ->
  digits ip -> digits fp ->
  removeAll cls (sym :: ip ++ POINT :: fp) = ip ++ POINT :: fp.
Proof.
  intros Hsym Hpoint Hcls Hip Hfp.
  pose proof (removeAll_digits cls ip Hcls Hip) as Ei.
  pose proof (removeAll_digits cls fp Hcls Hfp) as Ef.
  unfold removeAll, jsstring in *.
  rewrite filter_cons_False by (rewrite Hsym; discriminate).
  rewrite filter_app, Ei, filter_cons_True by exact Hpoint.
  rewrite Ef. reflexivity.
Qed.

Lemma digit_not_in_class ch :
  isDigit ch = true ->
  dollarClass ch = false /\ euroClass ch = false /\ poundClass ch = false.
Proof.
  intros H. pose proof (digit_not_space ch H) as Hw. apply digit_range in H.
  unfold dollarClass, euroClass, poundClass, DOLLAR, EURO, POUND, COMMA.
  rewrite Hw.
  repeat match goal with
         | |- context [(?a =? ?b)%N] =>
             replace (a =? b)%N with false by (symmetry; apply N.eqb_neq; lia)
         end.
  auto.
Qed.

Lemma amountText_elem (x sym : jschar) ip fp :
  digits ip -> digits fp ->
  x ∈ amountText sym ip fp -> x = sym \/ x = POINT \/ (0x30 <= x <= 0x39)%N.
Proof.
  intros Hip Hfp H. unfold amountText in H.
  apply elem_of_cons in H as [->|H]; [auto|].
  apply elem_of_app in H as [H|H].
  - right. right. apply digit_range. eapply Forall_forall in Hip; eassumption.
  - apply elem_of_cons in H as [->|H]; [auto|].
    right. right. apply digit_range. eapply Forall_forall in Hfp; eassumption.
Qed.

End AmountFacts.

(** C3, as the code has it. For a price text without the letters "free":
    a text with the won sign is read as an integer, after removing the
    sign, commas and white space; otherwise the first of $, € and £ that
    occurs in the text selects the rate (1320, 1430, 1670), the amount X
    is read by [parseFloat] after removing that sign, commas and white
    space, and the result is [Math.round(X * rate)]; a text with none of
    the four signs parses to 0. In particular, for a sign followed by
    digits, a point and digits, X is the binary64 value nearest to the
    decimal number written. *)
Theorem parsePrice_foreign :
  (forall priceText, ~ containsFree priceText ->
     (WON ∈ priceText -> parsePrice priceText = parseInt (removeAll wonClass priceText)) /\
     (WON ∉ priceText -> DOLLAR ∈ priceText ->
        parsePrice priceText =
          Math_round (dmul (parseFloat (removeAll dollarClass priceText)) (double_of_Z 1320))) /\
     (WON ∉ priceText -> DOLLAR ∉ priceText -> EURO ∈ priceText ->
        parsePrice priceText =
          Math_round (dmul (parseFloat (removeAll euroClass priceText)) (double_of_Z 1430))) /\
     (WON ∉ priceText -> DOLLAR ∉ priceText -> EURO ∉ priceText -> POUND ∈ priceText ->
        parsePrice priceText =
          Math_round (dmul (parseFloat (removeAll poundClass priceText)) (double_of_Z 1670))) /\
     (WON ∉ priceText -> DOLLAR ∉ priceText -> EURO ∉ priceText -> POUND ∉ priceText ->
        parsePrice priceText = Fin 0)) /\
  (forall ip fp, ip <> [] -> digits ip -> digits fp ->
     let X := decimal_to_double false (digitsValue 10 digitValue (ip ++ fp))
                                (- Z.of_nat (length fp)) in
     parsePrice (amountText DOLLAR ip fp) = Math_round (dmul X (double_of_Z 1320)) /\
     parsePrice (amountText EURO ip fp) = Math_round (dmul X (double_of_Z 1430)) /\
     parsePrice (amountText POUND ip fp) = Math_round (dmul X (double_of_Z 1670))).
Proof.
  split; [exact parsePrice_by_symbol|].
  intros ip fp Hne Hip Hfp X.
  assert (Hnf : forall sym, (sym = DOLLAR \/ sym = EURO \/ sym = POUND) ->
                  ~ containsFree (amountText sym ip fp)).
  { intros sym Hs Hc. apply containsFree_has_e in Hc as [Hc|Hc];
      apply amountText_elem in Hc; try assumption;
      unfold DOLLAR, EURO, POUND, POINT in *;
      destruct Hs as [-> | [-> | ->]]; destruct Hc as [Hc|[Hc|Hc]]; try discriminate; lia. }
  assert (Hno : forall x sym, x <> sym -> x <> POINT -> ~ (0x30 <= x <= 0x39)%N ->
                  x ∉ amountText sym ip fp).
  { intros x sym H1 H2 H3 Hin. apply amountText_elem in Hin; try assumption. tauto. }
  assert (Hhere : forall sym, sym ∈ amountText sym ip fp) by (intros; left).
  assert (Hcls : forall ch, isDigit ch = true ->
            dollarClass ch = false /\ euroClass ch = false /\ poundClass ch = false)
    by apply digit_not_in_class.
  assert (HwD : WON ∉ amountText DOLLAR ip fp) by (apply Hno; unfold WON, DOLLAR, POINT; lia).
  assert (HwE : WON ∉ amountText EURO ip fp) by (apply Hno; unfold WON, EURO, POINT; lia).
  assert (HwP : WON ∉ amountText POUND ip fp) by (apply Hno; unfold WON, POUND, POINT; lia).
  assert (HdE : DOLLAR ∉ amountText EURO ip fp) by (apply Hno; unfold DOLLAR, EURO, POINT; lia).
  assert (HdP : DOLLAR ∉ amountText POUND ip fp) by (apply Hno; unfold DOLLAR, POUND, POINT; lia).
  assert (HeP : EURO ∉ amountText POUND ip fp) by (apply Hno; unfold EURO, POUND, POINT; lia).
  split; [|split].
  - destruct (parsePrice_by_symbol _ (Hnf DOLLAR (or_introl eq_refl))) as (_ & H & _).
    rewrite (H HwD (Hhere DOLLAR)). unfold amountText.
    rewrite removeAll_amount, parseFloat_decimal; try assumption; try reflexivity.
    intros ch Hch. apply Hcls, Hch.
  - destruct (parsePrice_by_symbol _ (Hnf EURO (or_intror (or_introl eq_refl))))
      as (_ & _ & H & _).
    rewrite (H HwE HdE (Hhere EURO)). unfold amountText.
    rewrite removeAll_amount, parseFloat_decimal; try assumption; try reflexivity.
    intros ch Hch. apply Hcls, Hch.
  - destruct (parsePrice_by_symbol _ (Hnf POUND (or_intror (or_intror eq_refl))))
      as (_ & _ & _ & H & _).
    rewrite (H HwP HdP HeP (Hhere POUND)). unfold amountText.
    rewrite removeAll_amount, parseFloat_decimal; try assumption; try reflexivity.
    intros ch Hch. apply Hcls, Hch.
Qed.

(** ** Properties of searchSteamGame *)

Section VariantFacts.



Lemma uniq_from_elem seen l x :
  x ∈ uniq_from seen l <-> x ∈ l /\ x ∉ seen.
Proof.
  revert seen. induction l as [|y l IH]; intros seen; simpl.
  - split; [inversion 1|intros [H _]; inversion H].
  - destruct (bool_decide (y ∈ seen)) eqn:E.
    + apply bool_decide_eq_true in E. rewrite IH, elem_of_cons.
      split; [tauto|]. intros [[->|H] Hs]; [contradiction|tauto].
    + apply bool_decide_eq_false in E. rewrite !elem_of_cons, IH, elem_of_cons.
      split.
      * intros [->|[H Hs]]; [tauto|]. split; [tauto|]. tauto.
      * intros [[->|H] Hs]; [tauto|].
        destruct (decide (x = y)) as [->|Hne]; [tauto|]. right. tauto.
Qed.




Lemma longEnough_spec v : longEnough v = true <-> (3 <= length (trim v))%nat.
Proof.
  unfold longEnough. rewrite andb_true_iff, negb_true_iff, Nat.ltb_lt.
  split; [intros [_ H]; lia|]. intros H. split; [|lia].
  apply bool_decide_eq_false_2. intros ->. cbn in H. lia.
Qed.

End VariantFacts.

Section SearchFacts.
Variable net : network.

Lemma matchOf_result (best : item) (label : jsstring) :
  matchOf {| sr_appid := item_id best; sr_name := item_name best;
             sr_type := item_type best; sr_source := label |} = best.
Proof. destruct best. reflexivity. Qed.

Lemma searchLoop_resolveBySpec attempts i c :
  searchCacheSound net c ->
  matchOf <$> (searchLoop net i attempts c).1 = resolveBySpec net attempts /\
  searchCacheSound net (searchLoop net i attempts c).2.
Proof.
  revert i. induction attempts as [|attempt rest IH]; intros i Hc.
  - split; [reflexivity|exact Hc].
  - cbn [searchLoop resolveBySpec].
    destruct (steam_search_ c !! trim attempt) as [cached|] eqn:Ec.
    + rewrite (Hc _ _ Ec). split; [reflexivity|exact Hc].
    + unfold candidate.
      destruct (storesearch net (trim attempt)) as [message|[|first items]] eqn:Es.
      * apply IH, Hc.
      * apply IH, Hc.
      * cbn [fst snd]. split.
        -- cbn [fmap option_fmap option_map]. unfold bestMatch.
           rewrite matchOf_result. reflexivity.
        -- intros term r Hr. cbn [set_steam_search steam_search_] in Hr.
           destruct (decide (trim attempt = term)) as [<-|Hne].
           ++ rewrite lookup_insert_eq in Hr. injection Hr as <-.
              unfold candidate. rewrite Es, matchOf_result. reflexivity.
           ++ rewrite lookup_insert_ne in Hr by exact Hne. apply Hc, Hr.
Qed.


End SearchFacts.

(** *** The search cache under a fixed catalog *)

Section CacheFacts.
Variable net : network.

Lemma set_steam_price_sound k v c :
  searchCacheSound net c -> searchCacheSound net (set_steam_price k v c).
Proof. intros H term r Hr. apply H, Hr. Qed.

Lemma set_cdkeys_sound k v c :
  searchCacheSound net c -> searchCacheSound net (set_cdkeys k v c).
Proof. intros H term r Hr. apply H, Hr. Qed.

Lemma fetchSteamPriceByAppId_sound appId gameName c :
  searchCacheSound net c ->
  searchCacheSound net (fetchSteamPriceByAppId net appId gameName c).2.
Proof.
  intros H. unfold fetchSteamPriceByAppId.
  destruct (steam_price_ c !! appidKey appId); [exact H|].
  destruct (appdetails net appId) as [message|[[[] [details|]]|]]; exact H.
Qed.

Lemma fetchSteamPrice_sound gameName c :
  searchCacheSound net c -> searchCacheSound net (fetchSteamPrice net gameName c).2.
Proof.
  intros H. unfold fetchSteamPrice.
  destruct (steam_price_ c !! gameName); [exact H|].
  pose proof (proj2 (searchLoop_resolveBySpec net (uniqueAttempts gameName) 0 c H)) as H1.
  unfold searchSteamGame.
  destruct (searchLoop net 0 (uniqueAttempts gameName) c) as [[gameInfo|] c1]; [|exact H1].
  pose proof (fetchSteamPriceByAppId_sound (sr_appid gameInfo) gameName c1 H1) as H2.
  destruct (fetchSteamPriceByAppId net (sr_appid gameInfo) gameName c1) as [[result|] c2];
    [|exact H2].
  apply set_steam_price_sound, H2.
Qed.

Lemma quotes_sound cdkeysGames c :
  searchCacheSound net c -> searchCacheSound net (quotes net cdkeysGames c).2.
Proof.
  revert c. induction cdkeysGames as [|g rest IH]; intros c H; [exact H|].
  cbn [quotes].
  pose proof (fetchSteamPrice_sound (name g) c H) as H1.
  destruct (fetchSteamPrice net (name g) c) as [quote c1].
  specialize (IH c1 H1). destruct (quotes net rest c1) as [qs c2]. exact IH.
Qed.

Lemma fetchCDKeysGames_sound listingUrl c :
  searchCacheSound net c -> searchCacheSound net (fetchCDKeysGames net listingUrl c).2.
Proof.
  intros H. unfold fetchCDKeysGames.
  destruct (cdkeys_ c !! listingUrl); [exact H|].
  destruct (page_evaluate net listingUrl); [exact H|].
  apply set_cdkeys_sound, H.
Qed.

(** With a fixed catalog, serving a compare request keeps the search
    cache sound; it is sound when empty. *)
Lemma api_compare_sound req c :
  searchCacheSound net c -> searchCacheSound net (api_compare net req c).2.
Proof.
  intros H. unfold api_compare.
  destruct (req_url req) as [[|ch u]|]; try exact H.
  pose proof (fetchCDKeysGames_sound (ch :: u) c H) as H1.
  destruct (fetchCDKeysGames net (ch :: u) c) as [[message|[|g l]] c1]; try exact H1.
  rewrite compareLoop_quotes. apply quotes_sound, H1.
Qed.

Lemma empty_cache_sound : searchCacheSound net empty_cache.
Proof. intros term r Hr. cbn in Hr. rewrite lookup_empty in Hr. discriminate. Qed.

End CacheFacts.


(** ** The properties at work in the demo world *)

Lemma compare_savings_threshold_witness :
  let req := Demo.request (Some (Fin 0)) in
  (Demo.hades, Some Demo.hadesQuote) ∈ runQuotes Demo.mixed req empty_cache /\
  savings (makeGameData Demo.hades Demo.hadesQuote) = Fin 100 /\
  makeGameData Demo.hades Demo.hadesQuote
    ∈ responseGames (api_compare Demo.mixed req empty_cache).1.
Proof.
  intros req.
  assert (Hin : (Demo.hades, Some Demo.hadesQuote) ∈ runQuotes Demo.mixed req empty_cache).
  { vm_compute. apply list_elem_of_here. }
  split; [exact Hin|]. split; [vm_compute; reflexivity|].
  apply (proj2 (compare_savings_threshold Demo.mixed req empty_cache)
           Demo.hades (Some Demo.hadesQuote) Demo.hadesQuote Hin).
  - vm_compute. reflexivity.
  - vm_compute. reflexivity.
Defined.




Lemma parsePrice_foreign_witness :
  parsePrice (str "$29.99") = Fin 39587 /\
  parsePrice (EURO :: str "1.15") = Fin 1644 /\
  parsePrice (POUND :: str "10") = Fin 16700 /\
  parsePrice (WON :: str "79,000") = Fin 79000 /\
  parsePrice (amountText DOLLAR (str "29") (str "99"))
    = Math_round (dmul (decimal_to_double false 2999 (-2)) (double_of_Z 1320)).
Proof.
  assert (Hnf : forall s, includes (toLowerCase s) (str "free") = false -> ~ containsFree s).
  { intros s H Hc. apply includes_free in Hc. congruence. }
  assert (Hin : forall (sym : jschar) s, includes s [sym] = true -> sym ∈ s).
  { intros sym s. apply includes_singleton. }
  assert (Hout : forall (sym : jschar) s, includes s [sym] = false -> sym ∉ s).
  { intros sym s H Hc. apply includes_singleton in Hc. congruence. }
  assert (Hdigits : forall s, forallb isDigit s = true -> digits s).
  { intros s H. apply Forall_forall. intros ch Hch.
    rewrite forallb_forall in H. apply H, list_elem_of_In, Hch. }
  destruct parsePrice_foreign as [Hsym Hamount].
  split; [|split; [|split; [|split]]].
  - destruct (Hsym (str "$29.99") (Hnf (str "$29.99") eq_refl)) as (_ & H & _).
    rewrite H; [vm_compute; reflexivity|apply Hout|apply Hin]; vm_compute; reflexivity.
  - destruct (Hsym (EURO :: str "1.15") (Hnf (EURO :: str "1.15") eq_refl)) as (_ & _ & H & _).
    rewrite H; [vm_compute; reflexivity|apply Hout|apply Hout|apply Hin];
      vm_compute; reflexivity.
  - destruct (Hsym (POUND :: str "10") (Hnf (POUND :: str "10") eq_refl)) as (_ & _ & _ & H & _).
    rewrite H; [vm_compute; reflexivity|apply Hout|apply Hout|apply Hout|apply Hin];
      vm_compute; reflexivity.
  - destruct (Hsym (WON :: str "79,000") (Hnf (WON :: str "79,000") eq_refl)) as (H & _).
    rewrite H; [vm_compute; reflexivity|apply Hin]; vm_compute; reflexivity.
  - destruct (Hamount (str "29") (str "99")) as (H & _);
      [discriminate|apply Hdigits; reflexivity|apply Hdigits; reflexivity|].
    exact H.
Defined.


(** ** Further properties of the code

    Properties of the functions around the compare pipeline: the text
    helpers, the price formatter, the caches and the export routes. *)

(** *** sanitizeProductName and cleanGameName *)

Section TrimFacts.

Lemma trimStart_suffix s : trimStart s `suffix_of` s.
Proof.
  induction s as [|ch s IH]; cbn [trimStart]; [reflexivity|].
  destruct (isWhiteSpace ch); [|reflexivity].
  apply suffix_cons_r, IH.
Qed.

Lemma trimStart_app a b :
  trimStart (a ++ b) = match trimStart a with [] => trimStart b | r => r ++ b end.
Proof.
  induction a as [|ch a IH]; cbn [app trimStart]; [reflexivity|].
  destruct (isWhiteSpace ch); [exact IH|reflexivity].
Qed.

(** [trimEnd] by recursion from the front. *)
Lemma trimEnd_cons ch s :
  trimEnd (ch :: s) =
    match trimEnd s with
    | [] => if isWhiteSpace ch then [] else [ch]
    | r => ch :: r
    end.
Proof.
  unfold trimEnd. cbn [rev]. rewrite trimStart_app.
  destruct (trimStart (rev s)) as [|x r] eqn:E.
  - cbn [rev trimStart]. destruct (isWhiteSpace ch); reflexivity.
  - rewrite rev_app_distr. cbn [rev app].
    destruct (rev r ++ [x]) eqn:E2; [destruct (rev r); discriminate|reflexivity].
Qed.

Lemma trimEnd_prefix s : trimEnd s `prefix_of` s.
Proof.
  induction s as [|ch s IH]; [reflexivity|].
  rewrite trimEnd_cons. destruct (trimEnd s) as [|x r].
  - destruct (isWhiteSpace ch); [apply prefix_nil|].
    apply prefix_cons, prefix_nil.
  - apply prefix_cons, IH.
Qed.

Lemma trimEnd_head ch s :
  isWhiteSpace ch = false -> exists r, trimEnd (ch :: s) = ch :: r.
Proof.
  intros H. rewrite trimEnd_cons, H. destruct (trimEnd s); eauto.
Qed.

Lemma trimEnd_idem s : trimEnd (trimEnd s) = trimEnd s.
Proof.
  induction s as [|ch s IH]; [reflexivity|].
  rewrite trimEnd_cons. destruct (trimEnd s) as [|x r] eqn:E.
  - destruct (isWhiteSpace ch) eqn:W; [reflexivity|].
    rewrite trimEnd_cons. cbn. rewrite W. reflexivity.
  - rewrite trimEnd_cons, IH. reflexivity.
Qed.

Lemma trimStart_fixed ch s : isWhiteSpace ch = false -> trimStart (ch :: s) = ch :: s.
Proof. intros H. cbn [trimStart]. rewrite H. reflexivity. Qed.

Lemma trimStart_head s :
  match trimStart s with [] => True | ch :: _ => isWhiteSpace ch = false end.
Proof.
  induction s as [|ch s IH]; cbn [trimStart]; [exact I|].
  destruct (isWhiteSpace ch) eqn:W; [exact IH|exact W].
Qed.

(** A trimmed string is empty or starts with a character that is not
    white space, and [trimEnd] leaves it as it is. *)
Lemma trim_shape s :
  match trim s with [] => True | ch :: _ => isWhiteSpace ch = false end
  /\ trimEnd (trim s) = trim s.
Proof.
  unfold trim. split; [|apply trimEnd_idem].
  pose proof (trimStart_head s) as H.
  destruct (trimStart s) as [|ch t]; [exact I|].
  destruct (trimEnd_head ch t H) as [r ->]. exact H.
Qed.

Lemma trim_idem s : trim (trim s) = trim s.
Proof.
  destruct (trim_shape s) as [Hh He].
  unfold trim at 1. destruct (trim s) as [|ch t]; [reflexivity|].
  rewrite (trimStart_fixed ch t Hh). exact He.
Qed.

Lemma trimmed_shape s :
  trimmed s ->
  match s with [] => True | ch :: _ => isWhiteSpace ch = false end /\ trimEnd s = s.
Proof. unfold trimmed. intros H. rewrite <- H. apply trim_shape. Qed.

Lemma trim_sublist s : trim s `sublist_of` s.
Proof.
  unfold trim.
  destruct (trimEnd_prefix (trimStart s)) as [k Hk].
  destruct (trimStart_suffix s) as [k' Hk'].
  rewrite Hk' at 2. rewrite Hk at 2.
  apply sublist_inserts_l, sublist_inserts_r. reflexivity.
Qed.

(** Trimming a prefix of a trimmed string gives a prefix again. *)
Lemma trim_prefix_of_trimmed u t :
  trimmed t -> u `prefix_of` t -> trim u `prefix_of` t /\ trimmed (trim u).
Proof.
  intros Ht Hu. split; [|apply trim_idem].
  destruct (trimmed_shape t Ht) as [Hh _].
  destruct u as [|ch u]; [apply prefix_nil|].
  destruct Hu as [k ->]. cbn in Hh.
  unfold trim. rewrite (trimStart_fixed ch u Hh).
  etransitivity; [apply trimEnd_prefix|]. exists k. reflexivity.
Qed.

End TrimFacts.

Section SanitizeFacts.

Lemma removeAll_sublist cls s : removeAll cls s `sublist_of` s.
Proof. unfold removeAll, jsstring. apply sublist_filter. Qed.

Lemma removeAll_clean cls s : Forall (fun ch => cls ch = false) (removeAll cls s).
Proof.
  unfold removeAll, jsstring. apply Forall_forall. intros ch Hch.
  apply list_elem_of_filter in Hch. tauto.
Qed.

Lemma removeAll_fixed cls s : Forall (fun ch => cls ch = false) s -> removeAll cls s = s.
Proof.
  induction 1 as [|ch s Hch _ IH]; [reflexivity|].
  unfold removeAll, jsstring in *. rewrite filter_cons_True by exact Hch.
  rewrite IH. reflexivity.
Qed.

Lemma Forall_sublist_of {A} (P : A -> Prop) (l1 l2 : list A) :
  l1 `sublist_of` l2 -> Forall P l2 -> Forall P l1.
Proof.
  intros Hs H. apply Forall_forall. intros x Hx.
  eapply Forall_forall in H; [exact H|]. eapply elem_of_sublist; eassumption.
Qed.

End SanitizeFacts.

(** X1. The sanitized product name contains none of the nine characters
    the pattern removes (backslash, asterisk, question mark, double
    quote, angle brackets, bar, colon, slash) and has no white space at
    either end; it keeps the other characters of the name in their order,
    and sanitizing it again changes nothing. *)
Theorem sanitizeProductName_clean (name : jsstring) :
  let r := sanitizeProductName name in
  Forall (fun ch => forbiddenClass ch = false) r /\
  trimmed r /\
  r `sublist_of` name /\
  sanitizeProductName r = r.
Proof.
  intros r. subst r. unfold sanitizeProductName.
  assert (Hclean : Forall (fun ch => forbiddenClass ch = false)
                     (trim (removeAll forbiddenClass name))).
  { eapply Forall_sublist_of; [apply trim_sublist|apply removeAll_clean]. }
  split; [exact Hclean|]. split; [apply trim_idem|]. split.
  - etransitivity; [apply trim_sublist|apply removeAll_sublist].
  - rewrite (removeAll_fixed _ _ Hclean). apply trim_idem.
Qed.

Section RegexFacts.
Variable ignoreCase : bool.

(** A successful match is a success of the continuation. *)
Lemma repeatMatcher_continues (m : jsstring -> continuation -> option jsstring) :
  (forall s k res, m s k = Some res -> exists s', k s' = Some res) ->
  forall fuel s k res, repeatMatcher m fuel s k = Some res -> exists s', k s' = Some res.
Proof.
  intros Hm fuel. induction fuel as [|n IH]; intros s k res H; cbn [repeatMatcher] in H.
  - eauto.
  - destruct (m s _) as [rest|] eqn:E; [|eauto].
    injection H as ->. apply Hm in E as [s' E].
    destruct (length s' <? length s)%nat; [|discriminate]. eapply IH, E.
Qed.

Lemma rmatch_continues r :
  forall s k res, rmatch ignoreCase r s k = Some res -> exists s', k s' = Some res.
Proof.
  induction r as [|c| | | |r1 IH1 r2 IH2|r1 IH1 r2 IH2|r IH|r IH|r IH];
    intros s k res H; cbn [rmatch] in H.
  - eauto.
  - destruct s as [|x s]; [discriminate|]. destruct (charEq _ _ _); [eauto|discriminate].
  - destruct s as [|x s]; [discriminate|]. destruct (isWhiteSpace x); [eauto|discriminate].
  - destruct s as [|x s]; [discriminate|]. destruct (isLineTerminator x); [discriminate|eauto].
  - destruct s; [eauto|discriminate].
  - apply IH1 in H as [s' H]. eapply IH2, H.
  - destruct (rmatch ignoreCase r1 s k) eqn:E; [injection H as ->; eapply IH1, E|eapply IH2, H].
  - eapply repeatMatcher_continues; [exact IH|exact H].
  - apply IH in H as [s' H]. eapply repeatMatcher_continues; [exact IH|exact H].
  - destruct (rmatch ignoreCase r s k) eqn:E; [injection H as ->; eapply IH, E|eauto].
Qed.

(** A match of an anchored pattern runs to the end of the input. *)
Lemma rmatch_anchored r :
  anchored r = true ->
  forall s k res, rmatch ignoreCase r s k = Some res -> k [] = Some res.
Proof.
  induction r as [|c| | | |r1 IH1 r2 IH2|r1 IH1 r2 IH2|r IH|r IH|r IH];
    intros Ha s k res H; try discriminate; cbn [rmatch anchored] in *.
  - destruct s; [exact H|discriminate].
  - apply rmatch_continues in H as [s' H]. eapply IH2; eassumption.
Qed.

(** Removing the match of an anchored pattern removes a suffix. *)
Lemma replace_anchored r s :
  anchored r = true -> replace ignoreCase r s `prefix_of` s.
Proof.
  intros Ha. induction s as [|ch s IH]; cbn [replace].
  - destruct (rmatch ignoreCase r [] Some) eqn:E.
    + apply (rmatch_anchored r Ha) in E. injection E as <-. reflexivity.
    + reflexivity.
  - destruct (rmatch ignoreCase r (ch :: s) Some) eqn:E.
    + apply (rmatch_anchored r Ha) in E. injection E as <-. apply prefix_nil.
    + apply prefix_cons, IH.
Qed.

End RegexFacts.

Section CleanFacts.

Lemma platformPatterns_anchored : Forall (fun p => anchored p = true) platformPatterns.
Proof.
  apply Forall_forall. intros p Hp.
  assert (H : forallb anchored platformPatterns = true) by (vm_compute; reflexivity).
  rewrite forallb_forall in H. apply H, list_elem_of_In, Hp.
Qed.

Lemma applyPatterns_prefix patterns t :
  Forall (fun p => anchored p = true) patterns -> trimmed t ->
  applyPatterns patterns t `prefix_of` t /\ trimmed (applyPatterns patterns t).
Proof.
  intros Hp. revert t. induction Hp as [|p patterns Ha _ IH]; intros t Ht.
  - split; [reflexivity|exact Ht].
  - unfold applyPatterns in *. cbn [fold_left].
    destruct (trim_prefix_of_trimmed (replace true p t) t Ht (replace_anchored true p t Ha))
      as [H1 H2].
    destruct (IH _ H2) as [H3 H4]. split; [|exact H4].
    etransitivity; eassumption.
Qed.

Lemma cleanGameName_parts (T : jsstring) :
  cleanGameName T = T \/ cleanGameName T `prefix_of` trim T.
Proof.
  destruct (applyPatterns_prefix platformPatterns (trim T) platformPatterns_anchored
              (trim_idem T)) as [Hpre _].
  unfold cleanGameName.
  destruct (_ || _); [left; reflexivity|right; exact Hpre].
Qed.

End CleanFacts.

(** X2. [cleanGameName] only ever cuts the end of a title: its result is
    either the raw title, untouched, or a prefix of the trimmed title
    that has no white space at its end, is at least 3 code units long and
    keeps at least 30% of the length of the raw title. In no case is the
    result longer than the raw title. *)
Theorem cleanGameName_cuts_suffix (T : jsstring) :
  (cleanGameName T = T \/
   (cleanGameName T `prefix_of` trim T /\ trimmed (cleanGameName T) /\
    (3 <= length (cleanGameName T))%nat /\
    (3 * length T <= 10 * length (cleanGameName T))%nat)) /\
  (length (cleanGameName T) <= length T)%nat.
Proof.
  destruct (applyPatterns_prefix platformPatterns (trim T) platformPatterns_anchored
              (trim_idem T)) as [Hpre Htrim].
  unfold cleanGameName, retentionBelow30.
  set (cleanName := applyPatterns platformPatterns (trim T)) in *.
  destruct (length cleanName <? 3)%nat eqn:E1; cbn [orb];
    [split; [left; reflexivity|lia]|].
  destruct (10 * length cleanName <? 3 * length T)%nat eqn:E2;
    [split; [left; reflexivity|lia]|].
  apply Nat.ltb_ge in E1, E2. split.
  - right. auto.
  - apply prefix_length in Hpre. pose proof (sublist_length _ _ (trim_sublist T)). lia.
Qed.

(** *** formatPriceFromCents and parsePrice *)

Section DecimalFacts.








End DecimalFacts.

Section FormatFacts.







End FormatFacts.



(** *** The cache *)

Section GrowthFacts.







Variable net : network.


(** A search writes to the search family only. *)
Lemma searchLoop_families attempts i c :
  cdkeys_ (searchLoop net i attempts c).2 = cdkeys_ c /\
  steam_price_ (searchLoop net i attempts c).2 = steam_price_ c.
Proof.
  revert i c. induction attempts as [|attempt rest IH]; intros i c; cbn [searchLoop].
  - split; reflexivity.
  - destruct (steam_search_ c !! trim attempt); [split; reflexivity|].
    destruct (storesearch net (trim attempt)) as [message|[|first others]]; cbn [snd];
      [apply IH|apply IH|split; reflexivity].
Qed.







Variable details : detailsService.

Lemma getSteamGameInfo_cache gameName c :
  (getSteamGameInfo details net gameName c).2 = (searchSteamGame net gameName c).2.
Proof.
  unfold getSteamGameInfo.
  destruct (searchSteamGame net gameName c) as [[gameInfo|] c1]; [|reflexivity].
  destruct (details (sr_appid gameInfo)) as [message|[[[] [gameData|]]|]]; reflexivity.
Qed.

Lemma getKoreanGameName_cache englishName c :
  (getKoreanGameName details net englishName c).2 = (searchSteamGame net englishName c).2.
Proof.
  unfold getKoreanGameName.
  destruct (searchSteamGame net englishName c) as [[gameInfo|] c1]; [|reflexivity].
  destruct (details (sr_appid gameInfo)) as [message|[[[] [gameData|]]|]]; try reflexivity.
  destruct (store_name gameData); [reflexivity|].
  destruct (bool_decide _); reflexivity.
Qed.



End GrowthFacts.


Section RepeatFacts.
Variable net : network.

(** An entry that a search adds or changes is filed under a term the
    store answers with at least one item. *)
Lemma searchLoop_writes attempts i c term :
  steam_search_ (searchLoop net i attempts c).2 !! term <> steam_search_ c !! term ->
  exists first others, storesearch net term = Returns (first :: others).
Proof.
  revert i c. induction attempts as [|attempt rest IH]; intros i c; cbn [searchLoop].
  - intros H. contradiction H. reflexivity.
  - destruct (steam_search_ c !! trim attempt) eqn:Hc;
      [intros H; contradiction H; reflexivity|].
    destruct (storesearch net (trim attempt)) as [message|[|first others]] eqn:Hs;
      cbn [snd]; [apply IH|apply IH|].
    cbn [set_steam_search steam_search_]. intros H.
    destruct (decide (trim attempt = term)) as [<-|Hne]; [eauto|].
    rewrite lookup_insert_ne in H by exact Hne. contradiction H. reflexivity.
Qed.

Lemma searchLoop_idempotent attempts i c :
  searchLoop net i attempts (searchLoop net i attempts c).2 = searchLoop net i attempts c.
Proof.
  revert i c. induction attempts as [|attempt rest IH]; intros i c; cbn [searchLoop];
    [reflexivity|].
  destruct (steam_search_ c !! trim attempt) eqn:Hc.
  { cbn [snd searchLoop]. rewrite Hc. reflexivity. }
  destruct (storesearch net (trim attempt)) as [message|[|first others]] eqn:Hs.
  - assert (Hl : steam_search_ (searchLoop net (S i) rest c).2 !! trim attempt = None).
    { destruct (steam_search_ (searchLoop net (S i) rest c).2 !! trim attempt) eqn:E;
        [|reflexivity].
      destruct (searchLoop_writes rest (S i) c (trim attempt)) as (f & o & Hf);
        congruence. }
    cbn [searchLoop]. rewrite Hl. apply IH.
  - assert (Hl : steam_search_ (searchLoop net (S i) rest c).2 !! trim attempt = None).
    { destruct (steam_search_ (searchLoop net (S i) rest c).2 !! trim attempt) eqn:E;
        [|reflexivity].
      destruct (searchLoop_writes rest (S i) c (trim attempt)) as (f & o & Hf);
        congruence. }
    cbn [searchLoop]. rewrite Hl. apply IH.
  - cbn [snd searchLoop set_steam_search steam_search_].
    rewrite lookup_insert_eq. reflexivity.
Qed.

Lemma searchSteamGame_idempotent gameName c :
  searchSteamGame net gameName (searchSteamGame net gameName c).2
    = searchSteamGame net gameName c.
Proof. apply searchLoop_idempotent. Qed.

End RepeatFacts.



(** X7. Under fixed answers of the store, a search run again on the cache
    it left gives the same result and adds nothing: the terms tried
    before the one that answered are still unanswered, and the one that
    answered is served from the cache. *)
Theorem searchSteamGame_repeats (net : network) (gameName : jsstring) (c : cache) :
  let r := searchSteamGame net gameName c in
  searchSteamGame net gameName r.2 = r /\
  cdkeys_ r.2 = cdkeys_ c /\ steam_price_ r.2 = steam_price_ c.
Proof.
  intros r. split; [apply searchSteamGame_idempotent|apply searchLoop_families].
Qed.

(** *** The export routes *)

Section ExportFacts.
Variable details : detailsService.
Variable net : network.

Lemma forbiddenClass_trim s :
  Forall (fun ch => forbiddenClass ch = false) s ->
  Forall (fun ch => forbiddenClass ch = false) (trim s).
Proof. apply Forall_sublist_of, trim_sublist. Qed.

Lemma sanitizeProductName_allowed name :
  Forall (fun ch => forbiddenClass ch = false) (sanitizeProductName name).
Proof. apply forbiddenClass_trim, removeAll_clean. Qed.



End ExportFacts.

(** X8. The product name of an export row never holds one of the nine
    characters that [sanitizeProductName] removes, whatever the two names
    are; it starts with the fixed prefix and ends with the fixed
    suffix. *)
Theorem productName_allowed (koreanName gameName : jsstring) :
  Forall (fun ch => forbiddenClass ch = false) (productName koreanName gameName) /\
  PRODUCT_PREFIX `prefix_of` productName koreanName gameName /\
  PRODUCT_SUFFIX `suffix_of` productName koreanName gameName.
Proof.
  assert (Hall : forall s, forallb (fun ch => negb (forbiddenClass ch)) s = true ->
                           Forall (fun ch => forbiddenClass ch = false) s).
  { intros s H. apply Forall_forall. intros ch Hch. apply list_elem_of_In in Hch.
    rewrite forallb_forall in H. apply negb_true_iff, H, Hch. }
  assert (Hp : Forall (fun ch => forbiddenClass ch = false) PRODUCT_PREFIX)
    by (apply Hall; vm_compute; reflexivity).
  assert (Hs : Forall (fun ch => forbiddenClass ch = false) PRODUCT_SUFFIX)
    by (apply Hall; vm_compute; reflexivity).
  unfold productName. destruct koreanName as [|ch koreanName].
  - split; [|split].
    + repeat apply Forall_app_2; auto using sanitizeProductName_allowed.
    + eexists. reflexivity.
    + exists (PRODUCT_PREFIX ++ sanitizeProductName gameName).
      rewrite <- app_assoc. reflexivity.
  - split; [|split].
    + repeat apply Forall_app_2; auto using sanitizeProductName_allowed.
    + eexists. reflexivity.
    + exists (PRODUCT_PREFIX ++ sanitizeProductName gameName ++ [SPACE]
              ++ sanitizeProductName (ch :: koreanName)).
      rewrite <- !app_assoc. reflexivity.
Qed.



(** X11. In the store export the two lookups of a game agree: the search
    of [getKoreanGameName], run on the cache [getSteamGameInfo] left, is
    answered as the first one was and adds nothing to the cache, so the
    Korean name is the one a lookup on the first cache would give; with
    the same details for both, it is either empty or the title of the
    game information and then differs from the name of the request. The
    title is empty only for an empty name. *)
Theorem export_lookups_agree (details details' : detailsService) (net : network)
    (gameName : jsstring) (c : cache) :
  let info := getSteamGameInfo details net gameName c in
  let korean' := getKoreanGameName details' net gameName info.2 in
  let korean := getKoreanGameName details net gameName info.2 in
  korean'.2 = info.2 /\
  korean'.1 = (getKoreanGameName details' net gameName c).1 /\
  (korean.1 = [] \/ (korean.1 = title info.1 /\ korean.1 <> gameName)) /\
  (gameName = [] \/ title info.1 <> []).
Proof.
  intros info korean' korean.
  assert (Hc : info.2 = (searchSteamGame net gameName c).2)
    by apply getSteamGameInfo_cache.
  assert (Hs : searchSteamGame net gameName info.2 = searchSteamGame net gameName c)
    by (rewrite Hc; apply searchSteamGame_idempotent).
  split; [|split; [|split]].
  - subst korean'. rewrite getKoreanGameName_cache, Hs. symmetry. exact Hc.
  - subst korean'. unfold getKoreanGameName. rewrite Hs. reflexivity.
  - subst korean. unfold getKoreanGameName. rewrite Hs.
    subst info. unfold getSteamGameInfo.
    destruct (searchSteamGame net gameName c) as [[gameInfo|] c1]; [|left; reflexivity].
    destruct (details (sr_appid gameInfo)) as [message|[[[] [gameData|]]|]];
      try (left; reflexivity).
    destruct (store_name gameData) as [|ch koreanName]; [left; reflexivity|].
    destruct (bool_decide_reflect (ch :: koreanName = gameName)) as [E|E];
      [left; reflexivity|right]. split; [reflexivity|exact E].
  - destruct (decide (gameName = [])) as [E|Hne]; [left; exact E|right].
    subst info. unfold getSteamGameInfo.
    destruct (searchSteamGame net gameName c) as [[gameInfo|] c1]; [|exact Hne].
    destruct (details (sr_appid gameInfo)) as [message|[[[] [gameData|]]|]];
      try exact Hne.
    cbn [fst title]. destruct (store_name gameData); [exact Hne|discriminate].
Qed.

(** *** Quotes by application id and the refresh route *)



Section RefreshFacts.


End RefreshFacts.


(** *** The compare route: accounting, thresholds and ties *)

Section SortTieFacts.
Context {A : Type} (key : A -> number).

Let comparefn (a b : A) : number := sub (key b) (key a).
Let descending (a b : A) : Prop := ge (key a) (key b) = true.

Lemma ge_not_gt x y : ge x y = true -> gt y x = false.
Proof.
  destruct x, y; cbn; try reflexivity; try discriminate.
  rewrite Z.leb_le, Z.ltb_ge. trivial.
Qed.

Lemma sort_insert_cons x y l :
  key x <> NaN -> key y <> NaN ->
  sort_insert comparefn x (y :: l) =
    if gt (key y) (key x) then y :: sort_insert comparefn x l else x :: y :: l.
Proof.
  intros Hx Hy. cbn [sort_insert]. unfold SortCompare, comparefn at 1.
  rewrite (descending_comparator (key x) (key y)) by assumption. reflexivity.
Qed.

Lemma sort_insert_first x l :
  key x <> NaN -> Forall (fun a => key a <> NaN) l ->
  Forall (descending x) l -> sort_insert comparefn x l = x :: l.
Proof.
  intros Hx Hl Hd. destruct l as [|y l]; [reflexivity|].
  apply Forall_cons in Hl as [Hy _]. apply Forall_cons in Hd as [Hxy _].
  rewrite sort_insert_cons by assumption.
  rewrite (ge_not_gt _ _ Hxy). reflexivity.
Qed.

(** Elements that compare equal are left as they stand. *)
Lemma sort_ties l s :
  Forall (fun a => ge (key a) s = true /\ ge s (key a) = true) l ->
  sort comparefn l = l.
Proof.
  induction 1 as [|x l [Hx1 Hx2] Hl IH]; [reflexivity|].
  cbn [sort]. rewrite IH.
  apply sort_insert_first.
  - apply ge_not_nan in Hx1. tauto.
  - eapply Forall_impl; [exact Hl|]. intros a [Ha _]. apply ge_not_nan in Ha. tauto.
  - eapply Forall_impl; [exact Hl|]. intros a [_ Ha]. eapply ge_trans; eassumption.
Qed.

End SortTieFacts.

Section SortFilterFacts.
Context {A : Type} (key : A -> number) (P : A -> bool).

Local Abbreviation comparefn := (fun a b : A => sub (key b) (key a)).
Local Abbreviation descending := (fun a b : A => ge (key a) (key b) = true).

Lemma filter_Forall (Q : A -> Prop) l : Forall Q l -> Forall Q (List.filter P l).
Proof.
  intros H. apply Forall_forall. intros a Ha.
  apply list_elem_of_In, filter_In in Ha as [Ha _].
  eapply Forall_forall in H; [exact H|]. apply list_elem_of_In, Ha.
Qed.

Lemma sort_insert_filter x l :
  key x <> NaN -> Forall (fun a => key a <> NaN) l ->
  StronglySorted descending l ->
  List.filter P (sort_insert comparefn x l) =
    if P x then sort_insert comparefn x (List.filter P l) else List.filter P l.
Proof.
  intros Hx Hl Hs. induction Hs as [|y l Hs IH Hy].
  - cbn. destruct (P x); reflexivity.
  - pose proof Hl as Hl'. apply Forall_cons in Hl' as [Hyn Hln].
    rewrite (sort_insert_cons key) by assumption.
    destruct (gt (key y) (key x)) eqn:E.
    + cbn [List.filter]. rewrite (IH Hln). destruct (P y) eqn:Py; [|reflexivity].
      destruct (P x); [|reflexivity].
      rewrite (sort_insert_cons key), E by assumption. reflexivity.
    + assert (Hxy : ge (key x) (key y) = true) by (apply not_gt_ge; assumption).
      change (List.filter P (x :: y :: l))
        with (if P x then x :: List.filter P (y :: l) else List.filter P (y :: l)).
      destruct (P x) eqn:Px; [|reflexivity].
      symmetry. apply (sort_insert_first key); [exact Hx|apply filter_Forall, Hl|].
      apply filter_Forall. constructor; [exact Hxy|].
      eapply Forall_impl; [exact Hy|]. intros z Hz. eapply ge_trans; eassumption.
Qed.

Lemma sort_filter l :
  Forall (fun a => key a <> NaN) l ->
  List.filter P (sort comparefn l) = sort comparefn (List.filter P l).
Proof.
  induction l as [|x l IH]; intros Hl; [reflexivity|].
  apply Forall_cons in Hl as [Hx Hl]. cbn [sort List.filter].
  assert (Hp : sort comparefn l ≡ₚ l) by apply (sort_perm key).
  rewrite sort_insert_filter;
    [|exact Hx|rewrite Hp; exact Hl|apply sort_sorted, Hl].
  rewrite (IH Hl). destruct (P x); reflexivity.
Qed.

End SortFilterFacts.

Section AccountFacts.
Variable minDifference : number.

Lemma one_place_per_product qs :
  length qs = (length (flat_map (contribution minDifference) qs)
               + length (flat_map unmatchedEntry qs)
               + length (List.filter (filteredOut minDifference) qs))%nat.
Proof.
  induction qs as [|gq qs IH]; [reflexivity|].
  cbn [flat_map List.filter]. rewrite !length_app.
  unfold contribution at 1, unmatchedEntry at 1, filteredOut at 1.
  destruct (usableQuote gq.2) as [quote|]; [|cbn [length]; lia].
  destruct (ge (savings (makeGameData gq.1 quote)) minDifference); cbn [length negb]; lia.
Qed.

Lemma contribution_raise (m : number) gq :
  ge m minDifference = true ->
  List.filter (fun d => ge (savings d) m) (contribution minDifference gq)
    = contribution m gq.
Proof.
  intros Hm. unfold contribution. destruct (usableQuote gq.2) as [quote|]; [|reflexivity].
  destruct (ge (savings (makeGameData gq.1 quote)) minDifference) eqn:E1;
    destruct (ge (savings (makeGameData gq.1 quote)) m) eqn:E2; cbn [List.filter];
    rewrite ?E2; try reflexivity.
  rewrite (ge_trans _ _ _ E2 Hm) in E1. discriminate.
Qed.

Lemma contributions_raise (m : number) qs :
  ge m minDifference = true ->
  List.filter (fun d => ge (savings d) m) (flat_map (contribution minDifference) qs)
    = flat_map (contribution m) qs.
Proof.
  intros Hm. induction qs as [|gq qs IH]; [reflexivity|].
  cbn [flat_map]. rewrite List.filter_app, IH, contribution_raise by exact Hm.
  reflexivity.
Qed.

End AccountFacts.

(** X15. Every listed product ends in exactly one place: the number of
    products quoted in a run is the number of games of the response plus
    the number of unmatched entries plus the number of resolved products
    whose savings do not reach the threshold, and the products quoted are
    the products of the listing, in its order. *)
Theorem compare_accounts_for_every_product (net : network) (req : compareRequest)
    (c : cache) :
  let qs := runQuotes net req c in
  let r := (api_compare net req c).1 in
  length qs = (length (responseGames r) + length (responseNotFound r)
               + length (List.filter (filteredOut (threshold req)) qs))%nat /\
  match listingOf net req c with
  | Listing cdkeysGames _ => map fst qs = cdkeysGames
  | _ => qs = []
  end.
Proof.
  intros qs r. subst r. split.
  - rewrite api_compare_games, api_compare_notFound.
    rewrite (Permutation_length (sort_perm savings _)).
    apply one_place_per_product.
  - subst qs. unfold runQuotes.
    destruct (listingOf net req c); try reflexivity. apply quotes_products.
Qed.

(** X16. Raising the threshold only removes games: for two requests for
    the same listing on the same cache, the second with a threshold at
    least the first, the games of the second response are the games of
    the first whose savings reach the higher threshold, in the same
    order; the unmatched entries, the status and the cache left behind
    are the same. *)
Theorem compare_threshold_monotone (net : network) (listingUrl : option jsstring)
    (low high : number) (c : cache) :
  ge high low = true ->
  let r1 := api_compare net {| req_url := listingUrl; req_minDifference := Some low |} c in
  let r2 := api_compare net {| req_url := listingUrl; req_minDifference := Some high |} c in
  responseGames r2.1 = List.filter (fun d => ge (savings d) high) (responseGames r1.1) /\
  responseNotFound r2.1 = responseNotFound r1.1 /\
  status r2.1 = status r1.1 /\
  r2.2 = r1.2.
Proof.
  intros Hm r1 r2. subst r1 r2.
  set (req1 := {| req_url := listingUrl; req_minDifference := Some low |}).
  set (req2 := {| req_url := listingUrl; req_minDifference := Some high |}).
  assert (Hq : runQuotes net req2 c = runQuotes net req1 c) by reflexivity.
  split; [|split; [|split]].
  - rewrite !api_compare_games, Hq.
    change (threshold req1) with low. change (threshold req2) with high.
    rewrite (sort_filter savings); [|apply (contributions_not_nan net req1 c)].
    rewrite contributions_raise by exact Hm. reflexivity.
  - rewrite !api_compare_notFound, Hq. reflexivity.
  - subst req1 req2. unfold api_compare. cbn [req_url req_minDifference].
    destruct listingUrl as [[|ch u]|]; try reflexivity.
    destruct (fetchCDKeysGames net (ch :: u) c) as [[message|[|g l]] c1]; try reflexivity.
    rewrite !compareLoop_quotes. reflexivity.
  - subst req1 req2. unfold api_compare. cbn [req_url req_minDifference].
    destruct listingUrl as [[|ch u]|]; try reflexivity.
    destruct (fetchCDKeysGames net (ch :: u) c) as [[message|[|g l]] c1]; try reflexivity.
    rewrite !compareLoop_quotes. reflexivity.
Qed.

(** X17. The ranking is stable: the games of a response whose savings
    equal a given amount stand in the order in which the listing had
    them. *)
Theorem compare_ties_in_listing_order (net : network) (req : compareRequest) (c : cache)
    (amount : number) :
  let tie d := ge (savings d) amount && ge amount (savings d) in
  List.filter tie (responseGames (api_compare net req c).1)
    = List.filter tie (flat_map (contribution (threshold req)) (runQuotes net req c)).
Proof.
  intros tie. rewrite api_compare_games.
  rewrite (sort_filter savings); [|apply contributions_not_nan].
  apply (sort_ties savings) with (s := amount).
  apply Forall_forall. intros d Hd.
  apply list_elem_of_In, filter_In in Hd as [_ Hd].
  apply andb_true_iff in Hd. exact Hd.
Qed.

(** *** The terms of a search *)

Section TermFacts.

Lemma partOf_refl s : partOf s s.
Proof. exists [], []. rewrite app_nil_r. reflexivity. Qed.

Lemma partOf_trans u v s : partOf u v -> partOf v s -> partOf u s.
Proof.
  intros (a & b & ->) (a' & b' & ->). exists (a' ++ a), (b ++ b').
  rewrite <- !app_assoc. reflexivity.
Qed.

Lemma prefix_partOf (u s : jsstring) : u `prefix_of` s -> partOf u s.
Proof. intros [k ->]. exists [], k. reflexivity. Qed.

Lemma suffix_partOf (u s : jsstring) : u `suffix_of` s -> partOf u s.
Proof. intros [k ->]. exists k, []. rewrite app_nil_r. reflexivity. Qed.

Lemma trim_partOf s : partOf (trim s) s.
Proof.
  unfold trim. eapply partOf_trans.
  - apply prefix_partOf, trimEnd_prefix.
  - apply suffix_partOf, trimStart_suffix.
Qed.

Lemma join_space_take n (parts : list jsstring) :
  join_space (take n parts) `prefix_of` join_space parts.
Proof.
  revert n. induction parts as [|w ws IH]; intros n.
  - rewrite take_nil. reflexivity.
  - destruct n as [|n]; [apply prefix_nil|]. cbn [take].
    specialize (IH n). destruct ws as [|w' ws].
    + rewrite take_nil. reflexivity.
    + destruct (take n (w' :: ws)) as [|t ts] eqn:E.
      * cbn [join_space]. apply prefix_app_r. reflexivity.
      * change (join_space (w :: t :: ts)) with (w ++ SPACE :: join_space (t :: ts)).
        change (join_space (w :: w' :: ws)) with (w ++ SPACE :: join_space (w' :: ws)).
        apply prefix_app, prefix_cons, IH.
Qed.

Lemma split_space_nonempty s : split_space s <> [].
Proof.
  destruct s as [|c s]; cbn [split_space]; [discriminate|].
  destruct (c =? SPACE)%N; [discriminate|].
  destruct (split_space s); discriminate.
Qed.

Lemma join_split_space s : join_space (split_space s) = s.
Proof.
  induction s as [|c s IH]; [reflexivity|]. cbn [split_space].
  pose proof (split_space_nonempty s) as Hne.
  destruct (N.eqb_spec c SPACE) as [->|Hc].
  - destruct (split_space s) as [|w ws]; [contradiction|].
    change (join_space ([] :: w :: ws)) with (SPACE :: join_space (w :: ws)).
    rewrite IH. reflexivity.
  - destruct (split_space s) as [|w ws]; [contradiction|].
    rewrite <- IH. destruct ws; reflexivity.
Qed.

Lemma without_last_words k s :
  join_space (slice_to_minus k (split_space s)) `prefix_of` s.
Proof.
  unfold slice_to_minus. rewrite <- (join_split_space s) at 3. apply join_space_take.
Qed.

Lemma uniq_from_length seen l : (length (uniq_from seen l) <= length l)%nat.
Proof.
  revert seen. induction l as [|x l IH]; intros seen; cbn [uniq_from length]; [lia|].
  destruct (bool_decide (x ∈ seen)).
  - specialize (IH seen). lia.
  - cbn [length]. specialize (IH (x :: seen)). lia.
Qed.

End TermFacts.

(** X18. The search asks the store only about the product: every term it
    tries, trimmed as it is sent, is a contiguous part of the name it was
    given and at least three code units long, and there are at most eight
    terms. The variants after the second are the name cut at some point:
    each is a prefix of the name. *)
Theorem searchSteamGame_terms_from_name (gameName : jsstring) :
  Forall (fun attempt => partOf (trim attempt) gameName /\
                         (3 <= length (trim attempt))%nat)
         (uniqueAttempts gameName) /\
  (length (uniqueAttempts gameName) <= 8)%nat /\
  Forall (fun variant => variant `prefix_of` gameName)
         (drop 2 (searchAttempts gameName)).
Proof.
  assert (Hcut : Forall (fun variant => variant `prefix_of` gameName)
                        (drop 2 (searchAttempts gameName))).
  { cbn [searchAttempts drop].
    repeat (constructor; [first [apply replace_anchored; reflexivity
                                |apply without_last_words]|]).
    constructor. }
  split; [|split; [|exact Hcut]].
  - apply Forall_forall. intros v Hv. unfold uniqueAttempts in Hv.
    apply list_elem_of_In, filter_In in Hv as [Hv Hlong].
    apply longEnough_spec in Hlong. split; [|exact Hlong].
    apply list_elem_of_In, uniq_from_elem in Hv as [Hv _].
    eapply partOf_trans; [apply trim_partOf|].
    unfold searchAttempts in Hv.
    apply elem_of_cons in Hv as [->|Hv]; [apply partOf_refl|].
    apply elem_of_cons in Hv as [->|Hv].
    + destruct (cleanGameName_parts gameName) as [->|H]; [apply partOf_refl|].
      eapply partOf_trans; [apply prefix_partOf, H|apply trim_partOf].
    + apply prefix_partOf. eapply Forall_forall in Hcut; [exact Hcut|exact Hv].
  - unfold uniqueAttempts.
    pose proof (filter_length longEnough (uniq (searchAttempts gameName))) as H1.
    pose proof (uniq_from_length [] (searchAttempts gameName)) as H2.
    fold (uniq (searchAttempts gameName)) in H2.
    change (length (searchAttempts gameName)) with 8%nat in H2. lia.
Qed.

Section LabelFacts.
Variable net : network.

Lemma searchLoop_outcome attempts i c :
  match searchLoop net i attempts c with
  | (Some r, c') =>
      exists j attempt,
        attempts !! j = Some attempt /\
        Forall (fun earlier => steam_search_ c !! trim earlier = None /\
                               candidate net (trim earlier) = None)
               (take j attempts) /\
        steam_search_ c' !! trim attempt = Some r /\
        ((steam_search_ c !! trim attempt = Some r /\ c' = c) \/
         (steam_search_ c !! trim attempt = None /\
          candidate net (trim attempt) = Some (matchOf r) /\
          sr_source r = sourceLabel (i + j) (trim attempt) /\
          c' = set_steam_search (trim attempt) r c))
  | (None, c') =>
      c' = c /\
      Forall (fun attempt => steam_search_ c !! trim attempt = None /\
                             candidate net (trim attempt) = None) attempts
  end.
Proof.
  revert i c. induction attempts as [|attempt rest IH]; intros i c; cbn [searchLoop].
  - split; [reflexivity|constructor].
  - destruct (steam_search_ c !! trim attempt) as [cached|] eqn:Hc.
    { exists 0%nat, attempt. split; [reflexivity|]. split; [constructor|].
      split; [exact Hc|]. left. split; [exact Hc|reflexivity]. }
    assert (Hskip : candidate net (trim attempt) = None ->
              match searchLoop net (S i) rest c with
              | (Some r, c') =>
                  exists j attempt0,
                    (attempt :: rest) !! j = Some attempt0 /\
                    Forall (fun earlier => steam_search_ c !! trim earlier = None /\
                                           candidate net (trim earlier) = None)
                           (take j (attempt :: rest)) /\
                    steam_search_ c' !! trim attempt0 = Some r /\
                    ((steam_search_ c !! trim attempt0 = Some r /\ c' = c) \/
                     (steam_search_ c !! trim attempt0 = None /\
                      candidate net (trim attempt0) = Some (matchOf r) /\
                      sr_source r = sourceLabel (i + j) (trim attempt0) /\
                      c' = set_steam_search (trim attempt0) r c))
              | (None, c') =>
                  c' = c /\
                  Forall (fun attempt0 => steam_search_ c !! trim attempt0 = None /\
                                          candidate net (trim attempt0) = None)
                         (attempt :: rest)
              end).
    { intros Hcand. specialize (IH (S i) c).
      destruct (searchLoop net (S i) rest c) as [[r|] c'].
      - destruct IH as (j & attempt0 & Hj & Hbefore & Hr & Hcase).
        exists (S j), attempt0. split; [exact Hj|].
        split; [cbn [take]; constructor; [split; assumption|exact Hbefore]|].
        split; [exact Hr|].
        replace (i + S j)%nat with (S i + j)%nat by lia. exact Hcase.
      - destruct IH as [-> IH]. split; [reflexivity|].
        constructor; [split; assumption|exact IH]. }
    unfold candidate in Hskip |- *.
    destruct (storesearch net (trim attempt)) as [message|[|first others]] eqn:Hs;
      [apply Hskip; reflexivity|apply Hskip; reflexivity|].
    clear Hskip. exists 0%nat, attempt. split; [reflexivity|]. split; [constructor|].
    split; [cbn [set_steam_search steam_search_]; apply lookup_insert_eq|].
    right. split; [exact Hc|]. unfold candidate. rewrite Hs.
    split; [rewrite matchOf_result; reflexivity|]. split; [|reflexivity].
    cbn [sr_source]. rewrite Nat.add_0_r. reflexivity.
Qed.

End LabelFacts.

(** X19. What a search returns, for any cache. A result comes from the
    first term that is cached or that the store answers, every earlier
    term being neither: either it is the cached entry of that term, as it
    stands, or it is the candidate of the store for that term, labelled
    with the 1-based position of the term and the term itself, and then
    filed under the term. Without a result the cache is unchanged and no
    term is cached or answered. *)
Theorem searchSteamGame_outcome (net : network) (gameName : jsstring) (c : cache) :
  let attempts := uniqueAttempts gameName in
  match searchSteamGame net gameName c with
  | (Some r, c') =>
      exists j attempt,
        attempts !! j = Some attempt /\
        Forall (fun earlier => steam_search_ c !! trim earlier = None /\
                               candidate net (trim earlier) = None)
               (take j attempts) /\
        steam_search_ c' !! trim attempt = Some r /\
        ((steam_search_ c !! trim attempt = Some r /\ c' = c) \/
         (steam_search_ c !! trim attempt = None /\
          candidate net (trim attempt) = Some (matchOf r) /\
          sr_source r = sourceLabel j (trim attempt) /\
          c' = set_steam_search (trim attempt) r c))
  | (None, c') =>
      c' = c /\
      Forall (fun attempt => steam_search_ c !! trim attempt = None /\
                             candidate net (trim attempt) = None) attempts
  end.
Proof. intros attempts. apply (searchLoop_outcome net attempts 0 c). Qed.

(** *** A compare run repeated *)

Section RerunFacts.
Variable net : network.






















End RerunFacts.


(** X21. A product whose CDKeys price text cannot be read as a number
    (its price parses to NaN) and whose quote is usable is dropped without
    a trace: it adds nothing to the games, whatever the threshold, and
    nothing to the unmatched entries, so the two lists together are
    shorter than the listing. *)
Theorem unreadable_price_drops_product (net : network) (req : compareRequest) (c : cache)
    (before after : list (game * option steamPrice)) (g : game) (quote : steamPrice) :
  runQuotes net req c = before ++ (g, Some quote) :: after ->
  sp_final quote <> MURYO ->
  parsePrice (price g) = NaN ->
  let r := (api_compare net req c).1 in
  responseGames r =
    sort bySavingsDesc (flat_map (contribution (threshold req)) (before ++ after)) /\
  responseNotFound r = flat_map unmatchedEntry (before ++ after) /\
  (length (responseGames r) + length (responseNotFound r)
   < length (runQuotes net req c))%nat.
Proof.
  intros Hrun Hfinal Hnan r. subst r.
  assert (Husable : usableQuote (Some quote) = Some quote).
  { unfold usableQuote. destruct (bool_decide_reflect (sp_final quote = MURYO));
      [contradiction|reflexivity]. }
  assert (Hnone : contribution (threshold req) (g, Some quote) = []).
  { unfold contribution. cbn [fst snd]. rewrite Husable.
    unfold makeGameData. cbn [savings]. rewrite Hnan.
    destruct (parsePrice (sp_original quote)); reflexivity. }
  assert (Hun : unmatchedEntry (g, Some quote) = []).
  { unfold unmatchedEntry. cbn [snd]. rewrite Husable. reflexivity. }
  assert (Hgames : responseGames (api_compare net req c).1 =
            sort bySavingsDesc (flat_map (contribution (threshold req)) (before ++ after))).
  { rewrite api_compare_games, Hrun, !flat_map_app. cbn [flat_map].
    rewrite Hnone. reflexivity. }
  assert (Hnf : responseNotFound (api_compare net req c).1 =
            flat_map unmatchedEntry (before ++ after)).
  { rewrite api_compare_notFound, Hrun, !flat_map_app. cbn [flat_map].
    rewrite Hun. reflexivity. }
  split; [exact Hgames|]. split; [exact Hnf|].
  rewrite Hgames, Hnf, (Permutation_length (sort_perm savings _)), Hrun.
  pose proof (one_array_per_product (threshold req) (before ++ after)) as H.
  rewrite !length_app in *. cbn [length]. lia.
Qed.

(** *** The name-cleaning test route *)

Section CleanRouteFacts.

Lemma partOf_length_eq (u s : jsstring) :
  partOf u s -> (length s <= length u)%nat -> u = s.
Proof.
  intros (a & b & ->) H. rewrite !length_app in H.
  destruct a; [|cbn [length] in H; lia]. destruct b; [|cbn [length] in H; lia].
  rewrite app_nil_r. reflexivity.
Qed.

Lemma cleanGameName_shortens T :
  cleanGameName T <> T -> (length (cleanGameName T) < length T)%nat.
Proof.
  intros Hne. destruct (cleanGameName_parts T) as [E|Hpre]; [contradiction|].
  pose proof (prefix_length _ _ Hpre) as H1.
  pose proof (sublist_length _ _ (trim_sublist T)) as H2.
  destruct (decide (length (cleanGameName T) = length T)) as [E|E]; [|lia].
  contradiction Hne.
  rewrite (prefix_length_eq _ _ Hpre) by lia.
  apply partOf_length_eq; [apply trim_partOf|lia].
Qed.

End CleanRouteFacts.

(** X22. The name-cleaning test route refuses a missing or empty name
    with status 400; otherwise it reports the cleaned name, and the flag
    [changed] is set exactly when the cleaned name is strictly shorter
    than the name given; the cleaned name is then a prefix of the trimmed
    name with at least three code units, and without the flag it is the
    name itself. *)
Theorem api_test_clean_name_answers (gameName : option jsstring) :
  match api_test_clean_name gameName with
  | CleanRefused status error =>
      status = 400%nat /\ (gameName = None \/ gameName = Some [])
  | Cleaned original cleaned changed =>
      gameName = Some original /\ original <> [] /\
      cleaned = cleanGameName original /\
      changed = (length cleaned <? length original)%nat /\
      (if changed
       then cleaned `prefix_of` trim original /\ (3 <= length cleaned)%nat
       else cleaned = original)
  end.
Proof.
  destruct gameName as [[|ch gameName]|]; cbn [api_test_clean_name]; auto.
  set (original := ch :: gameName).
  split; [reflexivity|]. split; [discriminate|]. split; [reflexivity|].
  destruct (decide (original = cleanGameName original)) as [E|E].
  - rewrite bool_decide_eq_true_2 by exact E. cbn [negb].
    rewrite <- E. split; [symmetry; apply Nat.ltb_irrefl|reflexivity].
  - rewrite bool_decide_eq_false_2 by exact E. cbn [negb].
    assert (Hlt : (length (cleanGameName original) < length original)%nat)
      by (apply cleanGameName_shortens; congruence).
    split; [symmetry; apply Nat.ltb_lt, Hlt|].
    destruct (cleanGameName_parts original) as [E'|Hpre]; [congruence|].
    split; [exact Hpre|].
    unfold cleanGameName in E |- *.
    destruct (_ <? 3)%nat eqn:E3; cbn [orb] in *; [contradiction E; reflexivity|].
    destruct (retentionBelow30 _ _); [contradiction E; reflexivity|].
    apply Nat.ltb_ge, E3.
Qed.

(** *** The further properties at work in the demo world *)


Lemma compare_threshold_monotone_witness :
  ge (Fin 200) (Fin 0) = true /\
  map savings (responseGames (api_compare Demo.mixed (Demo.request (Some (Fin 0)))
                                          empty_cache).1)
    = [Fin 500; Fin 100; Fin 50] /\
  map savings (responseGames (api_compare Demo.mixed (Demo.request (Some (Fin 200)))
                                          empty_cache).1)
    = [Fin 500].
Proof.
  split; [reflexivity|]. split; [vm_compute; reflexivity|].
  destruct (compare_threshold_monotone Demo.mixed (Some (str "https://www.cdkeys.com/pc"))
              (Fin 0) (Fin 200) empty_cache eq_refl) as (H & _).
  unfold Demo.request. rewrite H. vm_compute. reflexivity.
Defined.


Lemma unreadable_price_drops_product_witness :
  let req := Demo.request (Some (Fin 0)) in
  let r := (api_compare Demo.noAmount req empty_cache).1 in
  parsePrice (str "$TBD") = NaN /\
  map gd_name (responseGames r) = [str "Hades"] /\
  responseNotFound r = [] /\
  (length (responseGames r) + length (responseNotFound r)
   < length (runQuotes Demo.noAmount req empty_cache))%nat.
Proof.
  intros req r. split; [vm_compute; reflexivity|].
  split; [vm_compute; reflexivity|]. split; [vm_compute; reflexivity|].
  set (g := processGame (Demo.product "Celeste" "$TBD")).
  set (quote := {| sp_exactName := str "Celeste";
                   sp_appid := 504230;
                   sp_original := Demo.wonPrice "20,500";
                   sp_final := Demo.wonPrice "10,250";
                   sp_discount := Some (str "-50%");
                   sp_source := Some (sourceLabel 0 (str "Celeste")) |}).
  assert (Hrun : runQuotes Demo.noAmount req empty_cache
                 = [(Demo.hades, Some Demo.hadesQuote)] ++ (g, Some quote) :: []).
  { vm_compute. reflexivity. }
  assert (Hfinal : sp_final quote <> MURYO) by discriminate.
  assert (Hnan : parsePrice (price g) = NaN) by (vm_compute; reflexivity).
  destruct (unreadable_price_drops_product Demo.noAmount req empty_cache
              [(Demo.hades, Some Demo.hadesQuote)] [] g quote Hrun Hfinal Hnan)
    as (_ & _ & H).
  exact H.
Defined.
